(** * A fixed-capacity circular byte buffer: ringbuf.c and its flag-based variant

    Shallow embedding of the ring buffer engine.  Two variants of the
    library are in the source tree:

    - [src/ringbuf.c] with [ringbuf_write], [ringbuf_writeForce] and a
      best-effort [ringbuf_read] (module [RingbufC] below);
    - [src/unnamed/part_000] with [ringbuf_write (..., force)] and
      [ringbuf_read (..., strictRead)] (module [Part000] below).

    Every other function ([ringbuf_remove], [ringbuf_modify],
    [ringbuf_peek], [ringbuf_updatePointer], [ringbuf_memset],
    [ringbuf_strlen], [ringbuf_strchr], [ringbuf_strstr] and the status
    queries) has the same body in both files and is embedded once.

    Conventions.
    - A [uint16_t] or [int] value is a [Z]; an assignment of an [int]
      expression to a [uint16_t] object is written [u16 e]; C's [%] is
      [Z.rem] (truncating, as in C99).
    - The storage [arr] and the caller's buffers [pdata] are lists of
      bytes (a byte is a [Z]); [load] and [store] are indexing and
      in-place update.  An access outside the list is undefined in C;
      here a [load] yields [0] and a [store] does nothing.
    - Pointers ([obj], [pdata], [arr]) are taken to be non-null: the
      NULL branches of the source return the neutral value and touch
      nothing.
    - A mutating function returns the new object next to its C result. *)

From Stdlib Require Import ZArith Lia Bool.
From stdpp Require Import base numbers list.

Local Open Scope Z_scope.

(** ** Machine arithmetic *)

Definition UINT16_MAX : Z := 65535.
Definition INT_MIN : Z := -2147483648.
Definition INT_MAX : Z := 2147483647.

(** Conversion of an [int] value to [uint16_t]. *)
Definition u16 (x : Z) : Z := x mod 65536.

(** ** Memory *)

Definition load (a : list Z) (i : Z) : Z := default 0 (a !! Z.to_nat i).
Definition store (a : list Z) (i : Z) (v : Z) : list Z := <[Z.to_nat i := v]> a.

(** [for (uint16_t i = i0; i < i0 + n; i++) s = body i s;] with a bound
    that the body does not change.  The counter stays below the
    [uint16_t] bound it is compared with, so it never wraps. *)
Fixpoint for_loop {T : Type} (n : nat) (i : Z) (body : Z → T → T) (s : T) : T :=
  match n with
  | O => s
  | S n' => for_loop n' (i + 1) body (body i s)
  end.

(** ** The object *)

Record ringbuf_t : Type := mk_ringbuf {
  arr : list Z;   (* storage *)
  size : Z;       (* capacity *)
  used : Z;       (* number of stored bytes *)
  front : Z;      (* read cursor: first stored byte *)
  rear : Z        (* write cursor: first free slot *)
}.

Definition set_arr (obj : ringbuf_t) (a : list Z) : ringbuf_t :=
  mk_ringbuf a (size obj) (used obj) (front obj) (rear obj).
Definition set_used (obj : ringbuf_t) (u : Z) : ringbuf_t :=
  mk_ringbuf (arr obj) (size obj) u (front obj) (rear obj).
Definition set_front (obj : ringbuf_t) (f : Z) : ringbuf_t :=
  mk_ringbuf (arr obj) (size obj) (used obj) f (rear obj).
Definition set_rear (obj : ringbuf_t) (r : Z) : ringbuf_t :=
  mk_ringbuf (arr obj) (size obj) (used obj) (front obj) r.

(** ** Construction and status queries (both variants) *)

(** [ringbuf_init]: [None] is the [false] result. *)
Definition ringbuf_init (a : list Z) (sz : Z) : option ringbuf_t :=
  if sz <=? 0 then None else Some (mk_ringbuf a sz 0 0 0).

Definition ringbuf_deinit (obj : ringbuf_t) : ringbuf_t :=
  mk_ringbuf [] 0 0 0 0.

Definition ringbuf_getUsedLength (obj : ringbuf_t) : Z := used obj.
Definition ringbuf_isEmpty (obj : ringbuf_t) : bool := used obj =? 0.
Definition ringbuf_isFull (obj : ringbuf_t) : bool := used obj >=? size obj.

(** ** Functions shared by the two variants *)

(** [ringbuf_remove]; [length] is an [int]. *)
Definition ringbuf_remove (obj : ringbuf_t) (length : Z) : ringbuf_t * Z :=
  if (length =? 0) || (used obj =? 0) then (obj, 0)
  else if Z.abs length >=? used obj then
    (mk_ringbuf (arr obj) (size obj) 0 0 0, u16 (used obj))
  else if length >? 0 then
    (mk_ringbuf (arr obj) (size obj)
       (u16 (used obj - length))
       (u16 (Z.rem (front obj + length) (size obj)))
       (rear obj),
     u16 length)
  else
    (mk_ringbuf (arr obj) (size obj)
       (u16 (used obj + length))
       (front obj)
       (u16 (Z.rem (rear obj + size obj + length) (size obj))),
     u16 (- length)).

(** [ringbuf_modify] (the two files differ in the parameter order only). *)
Definition ringbuf_modify (obj : ringbuf_t) (index length : Z) (pdata : list Z)
  : ringbuf_t * bool :=
  if (index >=? used obj) || (length >? used obj - index) || (size obj =? 0)
  then (obj, false)
  else
    let start_pos := u16 (Z.rem (front obj + index) (size obj)) in
    (set_arr obj
       (for_loop (Z.to_nat length) 0
          (λ i a, store a (Z.rem (start_pos + i) (size obj)) (load pdata i))
          (arr obj)),
     true).

(** [ringbuf_peek]: the result is the caller's buffer after the call. *)
Definition ringbuf_peek (obj : ringbuf_t) (index length : Z) (pdata : list Z)
  : list Z * bool :=
  if (index >=? used obj) || (length >? used obj - index) || (size obj =? 0)
  then (pdata, false)
  else
    let start_pos := u16 (Z.rem (front obj + index) (size obj)) in
    (for_loop (Z.to_nat length) 0
       (λ i p, store p i (load (arr obj) (Z.rem (start_pos + i) (size obj))))
       pdata,
     true).

(** [ringbuf_updatePointer]. *)
Definition ringbuf_updatePointer (obj : ringbuf_t) (front0 rear0 used0 : Z)
  : ringbuf_t * bool :=
  if used0 >? size obj then (obj, false)
  else
    let front := u16 (Z.rem front0 (size obj)) in
    let rear := u16 (Z.rem rear0 (size obj)) in
    let used := u16 (Z.rem used0 (size obj)) in
    let len := u16 (if front <=? rear then rear - front
                    else size obj - front + rear) in
    if negb (len =? used) && negb ((len =? 0) && (used =? size obj))
    then (obj, false)
    else (mk_ringbuf (arr obj) (size obj) used front rear, true).

(** Body of the loop of [ringbuf_memset]:
    [obj->arr[start] = value; start = (start + 1) % obj->size;] *)
Definition fill_byte (sz value : Z) (i : Z) (s : list Z * Z) : list Z * Z :=
  let '(a, start) := s in
  (store a start value, u16 (Z.rem (start + 1) sz)).

(** [ringbuf_memset]. *)
Definition ringbuf_memset (obj : ringbuf_t) (index value length : Z)
  : ringbuf_t * Z :=
  if (length =? 0) || (index >=? size obj) then (obj, 0)
  else
    let start := u16 (Z.rem (front obj + index) (size obj)) in
    let length := if length <=? size obj then length else size obj in
    let '(a, _) :=
      for_loop (Z.to_nat length) 0 (fill_byte (size obj) value)
        (arr obj, start) in
    (set_arr obj a, length).

(** The [while] loop of [ringbuf_strlen].  The loop leaves when [count]
    reaches [used], so [used] rounds of fuel are never exhausted before
    the condition fails; with no fuel left the condition is false. *)
Fixpoint strlen_loop (fuel : nat) (obj : ringbuf_t) (start count : Z) : Z :=
  match fuel with
  | O => count
  | S fuel' =>
      if (count <? used obj) && negb (load (arr obj) start =? 0)
      then strlen_loop fuel' obj
             (u16 (Z.rem (start + 1) (size obj))) (u16 (count + 1))
      else count
  end.

Definition ringbuf_strlen (obj : ringbuf_t) (index : Z) : Z :=
  if index >=? used obj then 0
  else strlen_loop (Z.to_nat (used obj)) obj
         (u16 (Z.rem (front obj + index) (size obj))) 0.

(** The [while] loop of [ringbuf_strchr]; the result is an [int]. *)
Fixpoint strchr_loop (fuel : nat) (obj : ringbuf_t) (index ch start count : Z)
  : Z :=
  match fuel with
  | O => -1
  | S fuel' =>
      if count <? used obj then
        if load (arr obj) start =? ch
        then Z.rem (index + count) (used obj)
        else strchr_loop fuel' obj index ch
               (u16 (Z.rem (start + 1) (size obj))) (u16 (count + 1))
      else -1
  end.

Definition ringbuf_strchr (obj : ringbuf_t) (index ch : Z) : Z :=
  if index >=? used obj then -1
  else strchr_loop (Z.to_nat (used obj)) obj index ch
         (u16 (Z.rem (front obj + index) (size obj))) 0.

(** The inner [for] loop of [ringbuf_strstr]: the first [i] at which the
    window and the pattern differ, or [substring_len]. *)
Fixpoint strstr_match (fuel : nat) (obj : ringbuf_t) (substring : list Z)
    (substring_len start i : Z) : Z :=
  match fuel with
  | O => i
  | S fuel' =>
      if i <? substring_len then
        if negb (load (arr obj) (Z.rem (start + i) (size obj))
                 =? load substring i)
        then i
        else strstr_match fuel' obj substring substring_len start (u16 (i + 1))
      else i
  end.

Fixpoint strstr_loop (fuel : nat) (obj : ringbuf_t) (index : Z)
    (substring : list Z) (substring_len start count : Z) : Z :=
  match fuel with
  | O => -1
  | S fuel' =>
      if index + count + substring_len <=? used obj then
        let i := strstr_match (Z.to_nat substring_len) obj substring
                   substring_len start 0 in
        if i =? substring_len
        then Z.rem (index + count) (used obj)
        else strstr_loop fuel' obj index substring substring_len
               (u16 (Z.rem (start + 1) (size obj))) (u16 (count + 1))
      else -1
  end.

(** The length loop of [ringbuf_strstr]:
    [while (substring[substring_len] != '\0') substring_len++;].
    The 16-bit counter visits the positions 0, ..., 65535 and then
    starts again, so 65536 rounds decide: without a NUL among these
    positions the loop of the source never ends ([None]). *)
Fixpoint substring_length (fuel : nat) (substring : list Z) (substring_len : Z)
  : option Z :=
  match fuel with
  | O => None
  | S fuel' =>
      if negb (load substring substring_len =? 0)
      then substring_length fuel' substring (u16 (substring_len + 1))
      else Some substring_len
  end.

(** [ringbuf_strstr]; [substring] holds the bytes at the pointer.  A
    [load] behind the end of the list yields 0, so the terminating NUL
    may be left out of the list.  [None]: the call does not return. *)
Definition ringbuf_strstr (obj : ringbuf_t) (index : Z) (substring : list Z)
  : option Z :=
  if index >=? used obj then Some (-1)
  else
    match substring_length (Z.to_nat 65536) substring 0 with
    | None => None
    | Some substring_len =>
        Some (strstr_loop (S (Z.to_nat (used obj))) obj index substring
                substring_len
                (u16 (Z.rem (front obj + index) (size obj))) 0)
    end.

(** Body of the loop of [ringbuf_read] (the same in both files):
    [pdata[i] = obj->arr[obj->front]; obj->front = (obj->front + 1) % obj->size;] *)
Definition read_byte (i : Z) (s : ringbuf_t * list Z) : ringbuf_t * list Z :=
  let '(o, p) := s in
  (set_front o (u16 (Z.rem (front o + 1) (size o))),
   store p i (load (arr o) (front o))).

(** ** src/ringbuf.c *)

Module RingbufC.

(** Body of the loop of [ringbuf_write]. *)
Definition push (obj : ringbuf_t) (b : Z) : ringbuf_t :=
  mk_ringbuf (store (arr obj) (rear obj) b) (size obj)
    (u16 (used obj + 1))
    (front obj)
    (u16 (Z.rem (rear obj + 1) (size obj))).

(** [for (; len < length && len < space; len++)]: every round needs
    [len < length], so [length] rounds of fuel are enough. *)
Fixpoint write_loop (fuel : nat) (obj : ringbuf_t) (pdata : list Z)
    (length space len : Z) : ringbuf_t * Z :=
  match fuel with
  | O => (obj, len)
  | S fuel' =>
      if (len <? length) && (len <? space)
      then write_loop fuel' (push obj (load pdata len)) pdata length space
             (u16 (len + 1))
      else (obj, len)
  end.

Definition ringbuf_write (obj : ringbuf_t) (pdata : list Z) (length : Z)
  : ringbuf_t * Z :=
  if (length =? 0) || (size obj =? 0) then (obj, 0)
  else
    let space := u16 (size obj - used obj) in
    write_loop (Z.to_nat length) obj pdata length space 0.

(** Body of the loop of [ringbuf_writeForce]. *)
Definition push_force (obj : ringbuf_t) (b : Z) : ringbuf_t :=
  let obj1 := push obj b in
  if used obj1 >? size obj1
  then set_used (set_front obj1 (u16 (Z.rem (front obj1 + 1) (size obj1))))
         (size obj1)
  else obj1.

Definition ringbuf_writeForce (obj : ringbuf_t) (pdata : list Z) (length : Z)
  : ringbuf_t * Z :=
  if (length =? 0) || (size obj =? 0) then (obj, 0)
  else
    (for_loop (Z.to_nat length) 0 (λ len o, push_force o (load pdata len)) obj,
     length).

(** [ringbuf_read]: the new object, the caller's buffer after the call
    and the count. *)
Definition ringbuf_read (obj : ringbuf_t) (pdata : list Z) (length : Z)
  : ringbuf_t * list Z * Z :=
  if (length =? 0) || (used obj =? 0) then (obj, pdata, 0)
  else
    let readLength := if length <=? used obj then length else used obj in
    let '(o, p) := for_loop (Z.to_nat readLength) 0 read_byte (obj, pdata) in
    (set_used o (u16 (used o - readLength)), p, readLength).

End RingbufC.

(** ** src/unnamed/part_000 *)

Module Part000.

(** Body of the loop of [ringbuf_write]. *)
Definition put (pdata : list Z) (i : Z) (o : ringbuf_t) : ringbuf_t :=
  set_rear (set_arr o (store (arr o) (rear o) (load pdata i)))
    (u16 (Z.rem (rear o + 1) (size o))).

Definition ringbuf_write (obj : ringbuf_t) (pdata : list Z) (length : Z)
    (force : bool) : ringbuf_t * Z :=
  if (length =? 0) || (size obj =? 0) then (obj, 0)
  else
    let space := if force then size obj else u16 (size obj - used obj) in
    if length >? space then (obj, 0)
    else
      let written := if length <? space then length else space in
      let o := for_loop (Z.to_nat written) 0 (put pdata) obj in
      if force && (written >? size o - used o) then
        let cover_len := u16 (written - (size o - used o)) in
        (set_used (set_front o (u16 (Z.rem (front o + cover_len) (size o))))
           (size o),
         written)
      else (set_used o (u16 (used o + written)), written).

Definition ringbuf_read (obj : ringbuf_t) (pdata : list Z) (length : Z)
    (strictRead : bool) : ringbuf_t * list Z * Z :=
  if (length =? 0) || (used obj =? 0) then (obj, pdata, 0)
  else if strictRead && (length >? used obj) then (obj, pdata, 0)
  else
    let readLength := if length >? used obj then used obj else length in
    let '(o, p) := for_loop (Z.to_nat readLength) 0 read_byte (obj, pdata) in
    (set_used o (u16 (used o - readLength)), p, readLength).

End Part000.

(** ** Logical view *)

(** The bytes at the relative indices [i], ..., [i + k - 1]: relative
    index [j] is the slot [(front + j) mod size]. *)
Definition window (obj : ringbuf_t) (i k : Z) : list Z :=
  (λ j, load (arr obj) ((front obj + j) mod size obj)) <$> seqZ i k.

(** The stored bytes, oldest first. *)
Definition contents (obj : ringbuf_t) : list Z := window obj 0 (used obj).

(** The bytes [pdata[i]], ..., [pdata[i + k - 1]] of a caller's buffer. *)
Definition slice (pdata : list Z) (i k : Z) : list Z :=
  (λ j, load pdata j) <$> seqZ i k.

(** The fields are in their C ranges and the storage has [size] slots. *)
Definition wf (obj : ringbuf_t) : Prop :=
  0 < size obj ≤ UINT16_MAX ∧
  length (arr obj) = Z.to_nat (size obj) ∧
  0 ≤ used obj ≤ UINT16_MAX ∧
  0 ≤ front obj < size obj ∧
  0 ≤ rear obj < size obj.

(** The ring invariant of the specification. *)
Definition ring_inv (obj : ringbuf_t) : Prop :=
  rear obj = (front obj + used obj) mod size obj ∧ 0 ≤ used obj ≤ size obj.

Definition good (obj : ringbuf_t) : Prop := wf obj ∧ ring_inv obj.

(** The position of the first occurrence of [ch] in a list of bytes. *)
Fixpoint index_of (ch : Z) (l : list Z) : option Z :=
  match l with
  | [] => None
  | x :: l' => if x =? ch then Some 0 else Z.succ <$> index_of ch l'
  end.


(** ** Calls and reachable objects *)

Inductive variant : Type :=
  | ringbuf_c   (* src/ringbuf.c *)
  | part_000.   (* src/unnamed/part_000 *)

(** One call of the interface with its arguments. *)
Inductive op : Type :=
  | OpWrite (pdata : list Z) (length : Z)
  | OpWriteForce (pdata : list Z) (length : Z)
  | OpRead (pdata : list Z) (length : Z)
  | OpWriteFlag (pdata : list Z) (length : Z) (force : bool)
  | OpReadFlag (pdata : list Z) (length : Z) (strictRead : bool)
  | OpRemove (length : Z)
  | OpModify (index length : Z) (pdata : list Z)
  | OpPeek (index length : Z) (pdata : list Z)
  | OpUpdatePointer (front rear used : Z)
  | OpMemset (index value length : Z)
  | OpStrlen (index : Z)
  | OpStrchr (index ch : Z)
  | OpStrstr (index : Z) (substring : list Z).

(** The object after the call. *)
Definition exec (o : op) (obj : ringbuf_t) : ringbuf_t :=
  match o with
  | OpWrite pdata length => fst (RingbufC.ringbuf_write obj pdata length)
  | OpWriteForce pdata length =>
      fst (RingbufC.ringbuf_writeForce obj pdata length)
  | OpRead pdata length => fst (fst (RingbufC.ringbuf_read obj pdata length))
  | OpWriteFlag pdata length force =>
      fst (Part000.ringbuf_write obj pdata length force)
  | OpReadFlag pdata length strictRead =>
      fst (fst (Part000.ringbuf_read obj pdata length strictRead))
  | OpRemove length => fst (ringbuf_remove obj length)
  | OpModify index length pdata => fst (ringbuf_modify obj index length pdata)
  | OpUpdatePointer front rear used =>
      fst (ringbuf_updatePointer obj front rear used)
  | OpMemset index value length =>
      fst (ringbuf_memset obj index value length)
  | OpPeek _ _ _ | OpStrlen _ | OpStrchr _ _ | OpStrstr _ _ => obj
  end.

Definition is_u16 (x : Z) : Prop := 0 ≤ x ≤ UINT16_MAX.

(** The arguments are values of their C types; [abs] of [INT_MIN] is
    undefined and left out. *)
Definition op_args (o : op) : Prop :=
  match o with
  | OpWrite _ length | OpWriteForce _ length | OpRead _ length
  | OpWriteFlag _ length _ | OpReadFlag _ length _ => is_u16 length
  | OpRemove length => INT_MIN < length ≤ INT_MAX
  | OpModify index length _ | OpPeek index length _ =>
      is_u16 index ∧ is_u16 length
  | OpUpdatePointer front rear used =>
      is_u16 front ∧ is_u16 rear ∧ is_u16 used
  | OpMemset index _ length => is_u16 index ∧ is_u16 length
  | OpStrlen index | OpStrchr index _ | OpStrstr index _ => is_u16 index
  end.

(** Which file offers which call. *)
Definition op_in (v : variant) (o : op) : Prop :=
  match o, v with
  | (OpWrite _ _ | OpWriteForce _ _ | OpRead _ _), ringbuf_c => True
  | (OpWrite _ _ | OpWriteForce _ _ | OpRead _ _), part_000 => False
  | (OpWriteFlag _ _ _ | OpReadFlag _ _ _), part_000 => True
  | (OpWriteFlag _ _ _ | OpReadFlag _ _ _), ringbuf_c => False
  | _, _ => True
  end.

(** Objects reachable from a successful [ringbuf_init] by calls of one
    file. *)
Inductive reachable (v : variant) : ringbuf_t → Prop :=
  | reach_init a sz obj :
      is_u16 sz → length a = Z.to_nat sz →
      ringbuf_init a sz = Some obj → reachable v obj
  | reach_step o obj :
      reachable v obj → op_in v o → op_args o → reachable v (exec o obj).

(** * Proofs *)

(** ** Arithmetic *)

Lemma u16_small x : 0 ≤ x ≤ UINT16_MAX → u16 x = x.
Proof. unfold u16, UINT16_MAX. intros. apply Z.mod_small. lia. Qed.

Lemma u16_rem a b :
  0 ≤ a → 0 < b ≤ UINT16_MAX → u16 (Z.rem a b) = a mod b.
Proof.
  intros Ha Hb. rewrite Z.rem_mod_nonneg by lia.
  apply u16_small. pose proof (Z.mod_pos_bound a b). lia.
Qed.

Lemma u16_succ x : u16 (u16 x + 1) = u16 (x + 1).
Proof. unfold u16. by rewrite Zplus_mod_idemp_l. Qed.

Lemma mod_lo a n : 0 < n → 0 ≤ a mod n.
Proof. intros. by apply Z.mod_pos_bound. Qed.

Lemma mod_hi a n : 0 < n → a mod n < n.
Proof. intros. by apply Z.mod_pos_bound. Qed.

Lemma mod_succ_l a n : 0 < n → (a mod n + 1) mod n = (a + 1) mod n.
Proof. intros. by rewrite Zplus_mod_idemp_l. Qed.

Lemma mod_add_l a b n : 0 < n → (a mod n + b) mod n = (a + b) mod n.
Proof. intros. by rewrite Zplus_mod_idemp_l. Qed.

Lemma mod_add_n a n : 0 < n → (a + n) mod n = a mod n.
Proof.
  intros. replace (a + n) with (a + 1 * n) by lia. apply Z_mod_plus_full.
Qed.

Lemma mod_shift a b k n : a = b + k * n → a mod n = b mod n.
Proof. intros ->. apply Z_mod_plus_full. Qed.

(** Distinct offsets below the capacity land in distinct slots. *)
Lemma mod_offset_inj f i j n :
  0 ≤ i < n → 0 ≤ j < n → (f + i) mod n = (f + j) mod n → i = j.
Proof.
  intros Hi Hj Heq.
  assert (Hn : 0 < n) by lia.
  assert (H : (i - j) mod n = 0).
  { replace (i - j) with ((f + i) - (f + j)) by lia.
    rewrite Zminus_mod, Heq, Z.sub_diag. by apply Z.mod_0_l, Z.neq_sym, Z.lt_neq. }
  apply Z.mod_divide in H; [|lia]. destruct H as [k Hk].
  assert (k = 0) by nia. lia.
Qed.

Ltac arith :=
  first [ lia | apply mod_lo; lia | apply mod_hi; lia
        | unfold UINT16_MAX in *; lia ].

(** Closed side conditions on concrete objects. *)
Ltac by_compute := repeat split; vm_compute; done.

(** ** The counted loop *)

Lemma for_loop_S {T : Type} n i (body : Z → T → T) s :
  for_loop (S n) i body s = body (i + Z.of_nat n) (for_loop n i body s).
Proof.
  revert i s. induction n as [|n IH]; intros i s.
  - simpl. by rewrite Z.add_0_r.
  - change (for_loop (S (S n)) i body s)
      with (for_loop (S n) (i + 1) body (body i s)).
    rewrite IH. replace (i + 1 + Z.of_nat n) with (i + Z.of_nat (S n)) by lia.
    done.
Qed.

(** Invariant rule: [P k] holds after [k] rounds. *)
Lemma for_loop_rule {T : Type} (P : nat → T → Prop) n i (body : Z → T → T) s :
  P O s →
  (∀ k s, (k < n)%nat → P k s → P (S k) (body (i + Z.of_nat k) s)) →
  P n (for_loop n i body s).
Proof.
  intros H0 Hstep. induction n as [|n IH].
  - done.
  - rewrite for_loop_S. apply Hstep; [lia|]. apply IH. intros. apply Hstep; [lia|done].
Qed.

(** ** Memory and views *)

Lemma length_store a i v : length (store a i v) = length a.
Proof. unfold store. apply length_insert. Qed.

Lemma load_store_eq a i v :
  0 ≤ i → (Z.to_nat i < length a)%nat → load (store a i v) i = v.
Proof.
  intros Hi Hlen. unfold load, store. by rewrite list_lookup_insert_eq.
Qed.

Lemma load_store_ne a i j v :
  0 ≤ i → 0 ≤ j → i ≠ j → load (store a i v) j = load a j.
Proof.
  intros Hi Hj Hne. unfold load, store.
  rewrite list_lookup_insert_ne; [done|]. lia.
Qed.

Lemma load_lookup (a : list Z) (j : nat) x :
  a !! j = Some x → load a (Z.of_nat j) = x.
Proof. unfold load. rewrite Nat2Z.id. by intros ->. Qed.

Lemma window_length obj i k : length (window obj i k) = Z.to_nat k.
Proof. unfold window. by rewrite length_fmap, length_seqZ. Qed.

Lemma window_lookup obj i k (j : nat) :
  Z.of_nat j < k →
  window obj i k !! j
  = Some (load (arr obj) ((front obj + (i + Z.of_nat j)) mod size obj)).
Proof.
  intros Hj. unfold window. by rewrite list_lookup_fmap, lookup_seqZ_lt.
Qed.

Lemma window_app obj i k1 k2 :
  0 ≤ k1 → 0 ≤ k2 →
  window obj i (k1 + k2) = window obj i k1 ++ window obj (i + k1) k2.
Proof.
  intros. unfold window. by rewrite seqZ_app, fmap_app.
Qed.

Lemma window_nil obj i k : k ≤ 0 → window obj i k = [].
Proof. intros. unfold window. by rewrite seqZ_nil. Qed.

Lemma window_one obj i :
  window obj i 1 = [load (arr obj) ((front obj + i) mod size obj)].
Proof. unfold window. by rewrite seqZ_cons, seqZ_nil by lia. Qed.

Lemma window_cons obj i k :
  0 < k →
  window obj i k
  = load (arr obj) ((front obj + i) mod size obj) :: window obj (i + 1) (k - 1).
Proof.
  intros Hk. unfold window. rewrite seqZ_cons by lia.
  by rewrite Z.add_1_r, <- Z.sub_1_r.
Qed.

(** A window depends on the slots it covers only. *)
Lemma window_ext obj1 obj2 i1 i2 k :
  (∀ j, 0 ≤ j < k →
     load (arr obj1) ((front obj1 + (i1 + j)) mod size obj1)
     = load (arr obj2) ((front obj2 + (i2 + j)) mod size obj2)) →
  window obj1 i1 k = window obj2 i2 k.
Proof.
  intros Hext. apply list_eq. intros j.
  destruct (decide (Z.of_nat j < k)) as [Hj|Hj].
  - rewrite !window_lookup by done. f_equal. apply Hext. lia.
  - rewrite !lookup_ge_None_2; [done|rewrite window_length; lia..].
Qed.

Lemma window_take obj i k m :
  0 ≤ m ≤ k → take (Z.to_nat m) (window obj i k) = window obj i m.
Proof.
  intros Hm. replace k with (m + (k - m)) by lia.
  rewrite window_app by lia. rewrite take_app_length'; [done|].
  by rewrite window_length.
Qed.

Lemma window_drop obj i k m :
  0 ≤ m ≤ k → drop (Z.to_nat m) (window obj i k) = window obj (i + m) (k - m).
Proof.
  intros Hm. replace k with (m + (k - m)) at 1 by lia.
  rewrite window_app by lia. rewrite drop_app_length'; [done|].
  by rewrite window_length.
Qed.

Lemma contents_length obj : length (contents obj) = Z.to_nat (used obj).
Proof. apply window_length. Qed.

Lemma slice_length pdata i k : length (slice pdata i k) = Z.to_nat k.
Proof. unfold slice. by rewrite length_fmap, length_seqZ. Qed.

Lemma slice_lookup pdata i k (j : nat) :
  Z.of_nat j < k → slice pdata i k !! j = Some (load pdata (i + Z.of_nat j)).
Proof.
  intros Hj. unfold slice. by rewrite list_lookup_fmap, lookup_seqZ_lt.
Qed.

Lemma slice_nil pdata i k : k ≤ 0 → slice pdata i k = [].
Proof. intros. unfold slice. by rewrite seqZ_nil. Qed.

Lemma slice_snoc pdata i k :
  0 ≤ k → slice pdata i (k + 1) = slice pdata i k ++ [load pdata (i + k)].
Proof.
  intros. unfold slice. rewrite seqZ_app, fmap_app by lia.
  f_equal.
Qed.

(** The first [k] bytes of a buffer that has them. *)
Lemma slice_take pdata k :
  (k ≤ length pdata)%nat → slice pdata 0 (Z.of_nat k) = take k pdata.
Proof.
  intros Hk. apply list_eq. intros j.
  destruct (decide (j < k)%nat) as [Hj|Hj].
  - rewrite slice_lookup, lookup_take_lt by lia.
    destruct (lookup_lt_is_Some_2 pdata j) as [x Hx]; [lia|].
    rewrite Hx. f_equal. by apply load_lookup.
  - rewrite lookup_take_ge by lia.
    apply lookup_ge_None_2. rewrite slice_length. lia.
Qed.

Lemma slice_all pdata : slice pdata 0 (Z.of_nat (length pdata)) = pdata.
Proof. rewrite slice_take by done. by apply take_ge. Qed.

(** ** Preservation of the ring invariant, call by call *)

Ltac open_obj obj :=
  destruct obj as [a sz u f r];
  unfold good, wf, ring_inv, is_u16, UINT16_MAX in *; simpl in *.

Lemma push_good obj b : good obj → used obj < size obj → good (RingbufC.push obj b).
Proof.
  intros Hg Hlt. open_obj obj. destruct Hg as [(Hsz & Hlen & Hu & Hf & Hr) [Hrear Hus]].
  rewrite u16_small, u16_rem, length_store by (unfold UINT16_MAX; lia).
  pose proof (Z.mod_pos_bound (r + 1) sz).
  split_and!; try lia.
  subst r. rewrite mod_succ_l by lia. f_equal. lia.
Qed.

Lemma push_used obj b :
  good obj → used obj < size obj → used (RingbufC.push obj b) = used obj + 1.
Proof.
  intros Hg Hlt. open_obj obj. apply u16_small. unfold UINT16_MAX. lia.
Qed.

Lemma write_loop_good fuel obj pdata n space len :
  good obj → n ≤ UINT16_MAX → 0 ≤ len →
  space - len ≤ size obj - used obj →
  good (fst (RingbufC.write_loop fuel obj pdata n space len)).
Proof.
  revert obj len. induction fuel as [|fuel IH]; intros obj len Hg Hn Hlen Hsp; [done|].
  simpl. destruct ((len <? n) && (len <? space)) eqn:Hc; [|done].
  apply andb_true_iff in Hc as [H1%Z.ltb_lt H2%Z.ltb_lt].
  assert (Hlt : used obj < size obj) by lia.
  rewrite u16_small by lia.
  apply IH; [by apply push_good|done|lia|].
  rewrite push_used by done. simpl. lia.
Qed.

Lemma ringbuf_write_good obj pdata n :
  good obj → is_u16 n → good (fst (RingbufC.ringbuf_write obj pdata n)).
Proof.
  intros Hg Hn. unfold RingbufC.ringbuf_write.
  destruct ((n =? 0) || (size obj =? 0)); [done|].
  apply write_loop_good; [done|apply Hn|done|].
  rewrite u16_small; [lia|]. open_obj obj. lia.
Qed.

Lemma push_force_good obj b :
  good obj → size obj < UINT16_MAX → good (RingbufC.push_force obj b).
Proof.
  intros Hg Hsz. unfold RingbufC.push_force.
  destruct (decide (used obj < size obj)) as [Hlt|Hge].
  - pose proof (push_used obj b Hg Hlt) as Hu.
    pose proof (push_good obj b Hg Hlt) as Hg'.
    destruct (used (RingbufC.push obj b) >? size (RingbufC.push obj b)) eqn:Hc; [|done].
    apply Z.gtb_lt in Hc. rewrite Hu in Hc.
    change (size (RingbufC.push obj b)) with (size obj) in Hc. lia.
  - open_obj obj. destruct Hg as [(Hs & Hlen & Hu & Hf & Hr) [Hrear Hus]].
    assert (u = sz) as -> by lia.
    rewrite (u16_small (sz + 1)) by (unfold UINT16_MAX; lia).
    replace (sz + 1 >? sz) with true by (symmetry; apply Z.gtb_lt; lia).
    simpl. rewrite !u16_rem, length_store by (unfold UINT16_MAX; lia).
    pose proof (Z.mod_pos_bound (r + 1) sz).
    pose proof (Z.mod_pos_bound (f + 1) sz).
    split_and!; try lia.
    subst r. rewrite mod_succ_l, mod_add_l by lia. f_equal. lia.
Qed.

Lemma ringbuf_writeForce_good obj pdata n :
  good obj → size obj < UINT16_MAX →
  good (fst (RingbufC.ringbuf_writeForce obj pdata n)).
Proof.
  intros Hg Hsz. unfold RingbufC.ringbuf_writeForce.
  destruct ((n =? 0) || (size obj =? 0)); [done|]. simpl.
  apply (for_loop_rule (λ _ o, good o ∧ size o = size obj)); [done|].
  intros k o _ [Ho Hs]. split.
  - apply push_force_good; [done|lia].
  - unfold RingbufC.push_force. by destruct (_ >? _).
Qed.

(** After [k] rounds of the read loop the read cursor has moved [k]
    slots on; nothing else of the object has changed. *)
Lemma read_loop_obj obj pdata k :
  0 < size obj ≤ UINT16_MAX → 0 ≤ front obj < size obj →
  fst (for_loop k 0 read_byte (obj, pdata))
  = set_front obj ((front obj + Z.of_nat k) mod size obj).
Proof.
  intros Hsz Hf.
  induction k as [|k IH].
  - simpl. rewrite Z.add_0_r, Z.mod_small by done. by destruct obj.
  - rewrite for_loop_S. destruct (for_loop k 0 read_byte (obj, pdata)) as [o p].
    simpl in IH. subst o. simpl.
    pose proof (Z.mod_pos_bound (front obj + Z.of_nat k) (size obj)).
    rewrite u16_rem by lia. rewrite mod_succ_l by lia.
    unfold set_front. simpl. do 2 f_equal. lia.
Qed.

Lemma read_result_good obj k :
  good obj → 0 ≤ k ≤ used obj →
  good (set_used (set_front obj ((front obj + k) mod size obj))
          (u16 (used obj - k))).
Proof.
  intros Hg Hk. open_obj obj.
  destruct Hg as [(Hs & Hlen & Hu & Hf & Hr) [Hrear Hus]].
  rewrite u16_small by (unfold UINT16_MAX; lia).
  pose proof (Z.mod_pos_bound (f + k) sz).
  split_and!; try lia.
  subst r. rewrite mod_add_l by lia. f_equal. lia.
Qed.

Lemma ringbuf_read_good obj pdata n :
  good obj → is_u16 n → good (fst (fst (RingbufC.ringbuf_read obj pdata n))).
Proof.
  intros Hg Hn. unfold RingbufC.ringbuf_read.
  destruct ((n =? 0) || (used obj =? 0)); [done|].
  set (m := if n <=? used obj then n else used obj).
  assert (0 ≤ m ≤ used obj).
  { subst m. unfold is_u16 in Hn. destruct (Z.leb_spec n (used obj)); [lia|].
    destruct Hg as [Hw _]. unfold wf in Hw. lia. }
  pose proof (read_loop_obj obj pdata (Z.to_nat m)) as Hl.
  destruct (for_loop (Z.to_nat m) 0 read_byte (obj, pdata)) as [o p].
  simpl in *. rewrite Hl by (destruct Hg as [Hw _]; unfold wf in Hw; tauto).
  rewrite Z2Nat.id by lia. exact (read_result_good obj m Hg H).
Qed.

Lemma ringbuf_read_flag_good obj pdata n strict :
  good obj → is_u16 n →
  good (fst (fst (Part000.ringbuf_read obj pdata n strict))).
Proof.
  intros Hg Hn. unfold Part000.ringbuf_read.
  destruct ((n =? 0) || (used obj =? 0)); [done|].
  destruct (strict && (n >? used obj)); [done|].
  set (m := if n >? used obj then used obj else n).
  assert (0 ≤ m ≤ used obj).
  { subst m. unfold is_u16 in Hn. destruct (Z.gtb_spec n (used obj)); [|lia].
    destruct Hg as [Hw _]. unfold wf in Hw. lia. }
  pose proof (read_loop_obj obj pdata (Z.to_nat m)) as Hl.
  destruct (for_loop (Z.to_nat m) 0 read_byte (obj, pdata)) as [o p].
  simpl in *. rewrite Hl by (destruct Hg as [Hw _]; unfold wf in Hw; tauto).
  rewrite Z2Nat.id by lia. exact (read_result_good obj m Hg H).
Qed.

(** After [k] rounds of the write loop of part_000 the write cursor has
    moved [k] slots on; the other cursors are as before. *)
Lemma put_loop_cursors obj pdata k :
  0 < size obj ≤ UINT16_MAX → 0 ≤ rear obj < size obj →
  let o := for_loop k 0 (Part000.put pdata) obj in
  size o = size obj ∧ used o = used obj ∧ front o = front obj ∧
  rear o = (rear obj + Z.of_nat k) mod size obj ∧
  length (arr o) = length (arr obj).
Proof.
  intros Hsz Hr. induction k as [|k IH].
  - simpl. rewrite Z.add_0_r, Z.mod_small by done. done.
  - intros o. subst o. rewrite for_loop_S.
    destruct IH as (H1 & H2 & H3 & H4 & H5).
    set (o := for_loop k 0 (Part000.put pdata) obj) in *.
    unfold Part000.put. simpl. rewrite length_store, H1, H4.
    pose proof (Z.mod_pos_bound (rear obj + Z.of_nat k) (size obj)).
    rewrite u16_rem by lia. rewrite mod_succ_l by lia.
    split_and!; try done. f_equal. lia.
Qed.

Lemma ringbuf_write_flag_good obj pdata n force :
  good obj → is_u16 n →
  good (fst (Part000.ringbuf_write obj pdata n force)).
Proof.
  intros Hg Hn. unfold Part000.ringbuf_write.
  destruct ((n =? 0) || (size obj =? 0)); [done|].
  set (space := if force then size obj else u16 (size obj - used obj)).
  destruct (Z.gtb_spec n space) as [|Hle]; [done|].
  set (written := if n <? space then n else space).
  assert (written = n) as -> by (subst written; destruct (Z.ltb_spec n space); lia).
  pose proof Hg as [(Hs & Hlen & Hu & Hf & Hr) [Hrear Hus]].
  destruct (put_loop_cursors obj pdata (Z.to_nat n) Hs Hr) as (H1 & H2 & H3 & H4 & H5).
  set (o := for_loop (Z.to_nat n) 0 (Part000.put pdata) obj) in *.
  unfold is_u16 in Hn. rewrite Z2Nat.id in H4 by lia.
  assert (Hsp : space ≤ size obj).
  { subst space. destruct force; [lia|]. rewrite u16_small; unfold UINT16_MAX in *; lia. }
  destruct (force && (n >? size o - used o)) eqn:Hc; simpl.
  - apply andb_true_iff in Hc as [-> Hc%Z.gtb_lt]. rewrite H1, H2 in *.
    subst space. rewrite (u16_small (n - _)) by (unfold UINT16_MAX in *; lia).
    pose proof (Z.mod_pos_bound (front o + (n - (size obj - used obj))) (size obj)).
    rewrite u16_rem by (unfold UINT16_MAX in *; lia).
    unfold good, wf, ring_inv. simpl. rewrite H1, H3, H4, H5.
    split_and!; try arith.
    rewrite Hrear, !mod_add_l by lia. apply (mod_shift _ _ 0). lia.
  - assert (n ≤ size obj - used obj).
    { apply andb_false_iff in Hc as [->|Hc].
      - subst space. rewrite u16_small in Hle; unfold UINT16_MAX in *; lia.
      - rewrite Z.gtb_ltb in Hc. apply Z.ltb_ge in Hc. rewrite H1, H2 in Hc. lia. }
    rewrite H2. rewrite u16_small by (unfold UINT16_MAX in *; lia).
    unfold good, wf, ring_inv. simpl. rewrite H1, H3, H4, H5.
    split_and!; try arith.
    rewrite Hrear, mod_add_l by lia. f_equal. lia.
Qed.

Lemma ringbuf_remove_good obj n :
  good obj → INT_MIN < n ≤ INT_MAX → good (fst (ringbuf_remove obj n)).
Proof.
  intros Hg Hn. unfold ringbuf_remove.
  destruct ((n =? 0) || (used obj =? 0)); [done|].
  open_obj obj. destruct Hg as [(Hs & Hlen & Hu & Hf & Hr) [Hrear Hus]].
  destruct (Z.geb_spec (Z.abs n) u) as [Habs|Habs]; simpl.
  { rewrite Z.mod_0_l by lia. lia. }
  destruct (Z.gtb_spec n 0) as [Hpos|Hneg]; simpl.
  - rewrite u16_small, u16_rem by arith.
    split_and!; try arith.
    subst r. rewrite mod_add_l by lia. f_equal. lia.
  - rewrite u16_small, u16_rem by arith.
    split_and!; try arith.
    subst r. rewrite <- Z.add_assoc, mod_add_l by lia.
    apply (mod_shift _ _ 1). lia.
Qed.

Lemma ringbuf_modify_good obj index n pdata :
  good obj → good (fst (ringbuf_modify obj index n pdata)).
Proof.
  intros Hg. unfold ringbuf_modify.
  destruct (_ || _); [done|]. simpl.
  match goal with |- good (set_arr _ ?l) => assert (Hl : length l = length (arr obj)) end.
  { apply (for_loop_rule (λ _ a, length a = length (arr obj))); [done|].
    intros k a _ Ha. by rewrite length_store. }
  unfold good, wf, ring_inv in *. simpl. by rewrite Hl.
Qed.

Lemma ringbuf_memset_good obj index value n :
  good obj → good (fst (ringbuf_memset obj index value n)).
Proof.
  intros Hg. unfold ringbuf_memset.
  destruct (_ || _); [done|].
  match goal with |- context [for_loop ?k 0 ?b ?s] =>
    assert (Hl : length (fst (for_loop k 0 b s)) = length (arr obj)) end.
  { apply (for_loop_rule (λ _ s, length (fst s) = length (arr obj))); [done|].
    intros k [a st] _ Ha. simpl in *. by rewrite length_store. }
  destruct (for_loop _ _ _ _) as [a st]. simpl in *.
  unfold good, wf, ring_inv in *. simpl. by rewrite Hl.
Qed.

Lemma ringbuf_updatePointer_good obj f0 r0 u0 :
  wf obj → is_u16 f0 → is_u16 r0 → is_u16 u0 →
  snd (ringbuf_updatePointer obj f0 r0 u0) = true →
  good (fst (ringbuf_updatePointer obj f0 r0 u0)).
Proof.
  intros Hw Hf0 Hr0 Hu0. unfold ringbuf_updatePointer.
  destruct (u0 >? size obj); [done|].
  destruct Hw as (Hs & Hlen & Hu & Hf & Hr). unfold is_u16 in *.
  rewrite !u16_rem by lia.
  pose proof (Z.mod_pos_bound f0 (size obj)).
  pose proof (Z.mod_pos_bound r0 (size obj)).
  pose proof (Z.mod_pos_bound u0 (size obj)).
  set (f := f0 mod size obj) in *. set (r := r0 mod size obj) in *.
  set (u := u0 mod size obj) in *.
  rewrite (u16_small (if f <=? r then _ else _))
    by (destruct (Z.leb_spec f r); arith).
  replace (u =? size obj) with false by (symmetry; apply Z.eqb_neq; lia).
  rewrite andb_false_r, andb_true_r. simpl.
  destruct (Z.eqb_spec (if f <=? r then r - f else size obj - f + r) u) as [He|]; [|done].
  intros _. simpl. unfold good, wf, ring_inv. simpl.
  split_and!; try arith.
  destruct (Z.leb_spec f r).
  - rewrite Z.mod_small; lia.
  - symmetry. transitivity (r mod size obj);
      [apply (mod_shift _ _ 1); lia | apply Z.mod_small; lia].
Qed.

Lemma ringbuf_updatePointer_fail obj f0 r0 u0 :
  snd (ringbuf_updatePointer obj f0 r0 u0) = false →
  fst (ringbuf_updatePointer obj f0 r0 u0) = obj.
Proof.
  unfold ringbuf_updatePointer. destruct (u0 >? size obj); [done|].
  by destruct (negb _ && negb _).
Qed.

(** Every call of either file keeps a well-formed object with the ring
    invariant in that state, the byte-wise overwriting write of
    ringbuf.c as long as the capacity is below the largest [uint16_t]. *)
Lemma exec_good o obj :
  good obj → op_args o →
  (∀ pdata n, o = OpWriteForce pdata n → size obj < UINT16_MAX) →
  good (exec o obj).
Proof.
  intros Hg Ha Hforce.
  destruct o as [pd n|pd n|pd n|pd n fc|pd n st|n|ix n pd|ix n pd|f0 r0 u0
                |ix v n|ix|ix ch|ix sub]; simpl in *.
  - by apply ringbuf_write_good.
  - apply ringbuf_writeForce_good; [done|]. by eapply Hforce.
  - by apply ringbuf_read_good.
  - by apply ringbuf_write_flag_good.
  - by apply ringbuf_read_flag_good.
  - by apply ringbuf_remove_good.
  - by apply ringbuf_modify_good.
  - done.
  - destruct Ha as (? & ? & ?).
    destruct (snd (ringbuf_updatePointer obj f0 r0 u0)) eqn:Hres.
    + apply ringbuf_updatePointer_good; [apply Hg|done..].
    + by rewrite ringbuf_updatePointer_fail.
  - by apply ringbuf_memset_good.
  - done.
  - done.
  - done.
Qed.

Lemma write_loop_size fuel obj pdata n space len :
  size (fst (RingbufC.write_loop fuel obj pdata n space len)) = size obj.
Proof.
  revert obj len. induction fuel as [|fuel IH]; intros obj len; [done|].
  simpl. destruct (_ && _); [|done]. by rewrite IH.
Qed.

(** No call changes the capacity. *)
Lemma exec_size o obj : size (exec o obj) = size obj.
Proof.
  destruct o; simpl; try done.
  - unfold RingbufC.ringbuf_write. destruct (_ || _); [done|].
    apply write_loop_size.
  - unfold RingbufC.ringbuf_writeForce. destruct (_ || _); [done|]. simpl.
    apply (for_loop_rule (λ _ o, size o = size obj)); [done|].
    intros k o _ Ho. unfold RingbufC.push_force. by destruct (_ >? _).
  - unfold RingbufC.ringbuf_read. destruct (_ || _); [done|].
    match goal with |- context [for_loop ?k 0 ?b ?s] =>
      assert (Hl : size (fst (for_loop k 0 b s)) = size obj) end.
    { apply (for_loop_rule (λ _ s, size (fst s) = size obj)); [done|].
      by intros k [o p] _ Ho. }
    by destruct (for_loop _ _ _ _).
  - unfold Part000.ringbuf_write. destruct (_ || _); [done|].
    destruct (_ >? _); [done|].
    match goal with |- context [for_loop ?k 0 ?b ?s] =>
      assert (Hl : size (for_loop k 0 b s) = size obj) end.
    { apply (for_loop_rule (λ _ s, size s = size obj)); [done|].
      by intros k o _ Ho. }
    by destruct (_ && _).
  - unfold Part000.ringbuf_read. destruct (_ || _); [done|].
    destruct (_ && _); [done|].
    match goal with |- context [for_loop ?k 0 ?b ?s] =>
      assert (Hl : size (fst (for_loop k 0 b s)) = size obj) end.
    { apply (for_loop_rule (λ _ s, size (fst s) = size obj)); [done|].
      by intros k [o p] _ Ho. }
    by destruct (for_loop _ _ _ _).
  - unfold ringbuf_remove. destruct (_ || _); [done|].
    destruct (_ >=? _); [done|]. by destruct (_ >? _).
  - unfold ringbuf_modify. by destruct (_ || _).
  - unfold ringbuf_updatePointer. destruct (_ >? _); [done|].
    by destruct (negb _ && negb _).
  - unfold ringbuf_memset. destruct (_ || _); [done|].
    by destruct (for_loop _ _ _ _).
Qed.

Lemma ringbuf_init_good a sz obj :
  is_u16 sz → length a = Z.to_nat sz → ringbuf_init a sz = Some obj → good obj.
Proof.
  unfold ringbuf_init, is_u16. intros Hsz Hlen.
  destruct (Z.leb_spec sz 0); [done|]. intros [= <-].
  unfold good, wf, ring_inv. simpl. rewrite Z.mod_0_l by lia. lia.
Qed.

(** In part_000 every reachable object is well formed and satisfies the
    ring invariant. *)
Lemma reachable_part_000_good obj : reachable part_000 obj → good obj.
Proof.
  induction 1 as [a sz obj Hsz Hlen Hinit|o obj Hr IH Hin Ha].
  - by eapply ringbuf_init_good.
  - apply exec_good; [done..|]. intros pdata n ->. done.
Qed.

(** In ringbuf.c the same holds below the largest capacity. *)
Lemma reachable_ringbuf_c_good obj :
  reachable ringbuf_c obj → size obj < UINT16_MAX → good obj.
Proof.
  induction 1 as [a sz obj Hsz Hlen Hinit|o obj Hr IH Hin Ha]; intros Hmax.
  - by eapply ringbuf_init_good.
  - rewrite exec_size in Hmax. apply exec_good; [by apply IH|done|done].
Qed.

(** ** The truncating write of ringbuf.c *)

(** The loop of [ringbuf_write] runs [min length space] rounds. *)
Lemma write_loop_eq fuel obj pdata n space len :
  0 ≤ len → n ≤ UINT16_MAX → (Z.to_nat (n - len) ≤ fuel)%nat →
  RingbufC.write_loop fuel obj pdata n space len
  = (for_loop (Z.to_nat (Z.min n space - len)) len
       (λ i o, RingbufC.push o (load pdata i)) obj,
     Z.max len (Z.min n space)).
Proof.
  revert obj len. induction fuel as [|fuel IH]; intros obj len Hlen Hn Hfuel.
  - simpl. replace (Z.to_nat (Z.min n space - len)) with O by lia.
    simpl. f_equal. lia.
  - simpl. destruct ((len <? n) && (len <? space)) eqn:Hc.
    + apply andb_true_iff in Hc as [H1%Z.ltb_lt H2%Z.ltb_lt].
      rewrite u16_small by lia. rewrite IH by lia.
      replace (Z.to_nat (Z.min n space - len))
        with (S (Z.to_nat (Z.min n space - (len + 1)))) by lia.
      simpl. f_equal. lia.
    + assert (Z.min n space ≤ len).
      { apply andb_false_iff in Hc as [H1%Z.ltb_ge|H1%Z.ltb_ge]; lia. }
      replace (Z.to_nat (Z.min n space - len)) with O by lia.
      simpl. f_equal. lia.
Qed.

Lemma push_contents obj b :
  good obj → used obj < size obj →
  contents (RingbufC.push obj b) = contents obj ++ [b].
Proof.
  intros Hg Hlt. unfold contents. rewrite push_used by done.
  pose proof Hg as [(Hs & Hlen & Hu & Hf & Hr) [Hrear Hus]].
  rewrite window_app by lia. f_equal.
  - apply window_ext. intros j Hj. simpl.
    apply load_store_ne; [lia|arith|].
    rewrite Hrear. intros Heq. apply mod_offset_inj in Heq; lia.
  - rewrite window_one. simpl. f_equal.
    rewrite Z.add_0_l, <- Hrear. apply load_store_eq; lia.
Qed.

Lemma push_loop_spec pdata k obj i :
  good obj → used obj + Z.of_nat k ≤ size obj →
  let o := for_loop k i (λ i o, RingbufC.push o (load pdata i)) obj in
  good o ∧ size o = size obj ∧ used o = used obj + Z.of_nat k ∧
  front o = front obj ∧
  contents o = contents obj ++ slice pdata i (Z.of_nat k).
Proof.
  intros Hg. induction k as [|k IH]; intros Hk o.
  - subst o. simpl. split_and!; try done; try lia.
    unfold slice. by rewrite seqZ_nil, app_nil_r.
  - subst o. rewrite for_loop_S.
    destruct IH as (Hgo & Hsz & Hu & Hf & Hc); [lia|].
    set (o := for_loop k i _ obj) in *.
    assert (used o < size o) by lia.
    split_and!.
    + by apply push_good.
    + done.
    + rewrite push_used by done. lia.
    + done.
    + rewrite push_contents, Hc by done.
      rewrite Nat2Z.inj_succ, <- Z.add_1_r, slice_snoc by lia.
      by rewrite app_assoc.
Qed.

(** What [ringbuf_write] of ringbuf.c does to a well-formed object:
    it appends the first [min length space] bytes of the request. *)
Lemma ringbuf_write_spec obj pdata n :
  good obj → is_u16 n →
  let m := Z.min n (size obj - used obj) in
  let o := fst (RingbufC.ringbuf_write obj pdata n) in
  snd (RingbufC.ringbuf_write obj pdata n) = m ∧
  good o ∧ size o = size obj ∧ used o = used obj + m ∧
  front o = front obj ∧
  contents o = contents obj ++ slice pdata 0 m.
Proof.
  intros Hg Hn m o. subst o. unfold RingbufC.ringbuf_write.
  pose proof Hg as [(Hs & Hlen & Hu & Hf & Hr) [Hrear Hus]].
  unfold is_u16 in Hn.
  destruct (Z.eqb_spec n 0) as [->|Hn0]; simpl.
  { assert (m = 0) as -> by lia. split_and!; try done; try lia.
    unfold slice. by rewrite seqZ_nil, app_nil_r. }
  destruct (Z.eqb_spec (size obj) 0); [lia|].
  rewrite (u16_small (size obj - used obj)) by arith.
  rewrite write_loop_eq by lia. simpl.
  rewrite Z.sub_0_r. fold m.
  destruct (push_loop_spec pdata (Z.to_nat m) obj 0 Hg) as (H1 & H2 & H3 & H4 & H5);
    [lia|].
  rewrite Z2Nat.id in * by lia.
  split_and!; try done. lia.
Qed.

(** [ringbuf_write] of ringbuf.c as a counted loop. *)
Lemma ringbuf_write_unfold obj pdata n :
  0 ≤ used obj ≤ size obj → size obj ≤ UINT16_MAX → is_u16 n →
  let m := Z.min n (size obj - used obj) in
  RingbufC.ringbuf_write obj pdata n
  = (for_loop (Z.to_nat m) 0 (λ i o, RingbufC.push o (load pdata i)) obj, m).
Proof.
  intros Hu Hs Hn m. unfold RingbufC.ringbuf_write. unfold is_u16 in Hn.
  destruct (Z.eqb_spec n 0) as [->|Hn0]; simpl orb.
  { by replace m with 0 by lia. }
  destruct (Z.eqb_spec (size obj) 0) as [Hz|Hz]; cbv iota.
  { by replace m with 0 by lia. }
  rewrite (u16_small (size obj - used obj)) by lia.
  rewrite write_loop_eq by lia. fold m. rewrite Z.sub_0_r. f_equal. lia.
Qed.

(** ** Reading *)

(** After [k] rounds of the read loop the caller's buffer starts with
    the [k] oldest bytes; the rest of it is as before. *)
Lemma read_loop_out obj pdata k :
  0 < size obj ≤ UINT16_MAX → 0 ≤ front obj < size obj →
  (k ≤ length pdata)%nat →
  snd (for_loop k 0 read_byte (obj, pdata))
  = window obj 0 (Z.of_nat k) ++ drop k pdata.
Proof.
  intros Hsz Hf. induction k as [|k IH]; intros Hk.
  - by rewrite window_nil.
  - rewrite for_loop_S.
    pose proof (read_loop_obj obj pdata k Hsz Hf) as Ho.
    destruct (for_loop k 0 read_byte (obj, pdata)) as [o p].
    simpl in Ho, IH. subst o. rewrite IH by lia. simpl.
    rewrite Nat2Z.inj_succ, <- Z.add_1_r, window_app, window_one by lia.
    rewrite !Z.add_0_l. unfold store. rewrite Nat2Z.id.
    rewrite insert_app_r_alt by (rewrite window_length; lia).
    rewrite window_length, Nat2Z.id, Nat.sub_diag.
    destruct (lookup_lt_is_Some_2 pdata k) as [x Hx]; [lia|].
    rewrite (drop_S _ _ _ Hx). simpl. rewrite <- app_assoc. done.
Qed.

Lemma contents_after_read obj m :
  good obj → 0 ≤ m ≤ used obj →
  contents (set_used (set_front obj ((front obj + m) mod size obj))
              (u16 (used obj - m)))
  = drop (Z.to_nat m) (contents obj).
Proof.
  intros Hg Hm. pose proof Hg as [(Hs & Hlen & Hu & Hf & Hr) [Hrear Hus]].
  unfold contents. rewrite window_drop by done. simpl.
  rewrite u16_small by arith.
  apply window_ext. intros j Hj. simpl.
  rewrite mod_add_l by lia. f_equal. f_equal. lia.
Qed.

(** The common part of the two [ringbuf_read]: [m] bytes are copied out
    and consumed. *)
Lemma read_loop_spec obj pdata m :
  good obj → 0 ≤ m ≤ used obj → (Z.to_nat m ≤ length pdata)%nat →
  let s := for_loop (Z.to_nat m) 0 read_byte (obj, pdata) in
  let o := set_used (fst s) (u16 (used (fst s) - m)) in
  snd s = take (Z.to_nat m) (contents obj) ++ drop (Z.to_nat m) pdata ∧
  good o ∧ size o = size obj ∧ used o = used obj - m ∧
  front o = (front obj + m) mod size obj ∧ rear o = rear obj ∧
  arr o = arr obj ∧
  contents o = drop (Z.to_nat m) (contents obj).
Proof.
  intros Hg Hm Hp s o.
  pose proof Hg as [(Hs & Hlen & Hu & Hf & Hr) [Hrear Hus]].
  assert (Ho : o = set_used (set_front obj ((front obj + m) mod size obj))
                     (u16 (used obj - m))).
  { subst o s. rewrite read_loop_obj by done. by rewrite Z2Nat.id by lia. }
  split.
  - subst s. rewrite read_loop_out by done.
    rewrite Z2Nat.id by lia. unfold contents. by rewrite window_take.
  - rewrite Ho. split_and!; try done.
    + by apply read_result_good.
    + simpl. apply u16_small. arith.
    + by apply contents_after_read.
Qed.

Lemma ringbuf_read_spec obj pdata n :
  good obj → is_u16 n →
  let m := Z.min n (used obj) in
  (Z.to_nat m ≤ length pdata)%nat →
  let '(o, p, r) := RingbufC.ringbuf_read obj pdata n in
  r = m ∧
  p = take (Z.to_nat m) (contents obj) ++ drop (Z.to_nat m) pdata ∧
  good o ∧ size o = size obj ∧ used o = used obj - m ∧
  contents o = drop (Z.to_nat m) (contents obj).
Proof.
  intros Hg Hn m Hp. unfold RingbufC.ringbuf_read.
  pose proof Hg as [(Hs & Hlen & Hu & Hf & Hr) [Hrear Hus]].
  unfold is_u16 in Hn.
  destruct ((n =? 0) || (used obj =? 0)) eqn:Hz.
  { assert (m = 0) as ->.
    { apply orb_true_iff in Hz as [?%Z.eqb_eq|?%Z.eqb_eq]; lia. }
    simpl. split_and!; try done. lia. }
  replace (if n <=? used obj then n else used obj) with m
    by (subst m; destruct (Z.leb_spec n (used obj)); lia).
  destruct (read_loop_spec obj pdata m Hg) as (H1 & H2 & H3 & H4 & _ & _ & _ & H5);
    [lia|done|].
  destruct (for_loop (Z.to_nat m) 0 read_byte (obj, pdata)) as [o p].
  simpl in *. done.
Qed.

Lemma ringbuf_read_flag_spec obj pdata n strict :
  good obj → is_u16 n →
  (strict = false ∨ n ≤ used obj) →
  let m := Z.min n (used obj) in
  (Z.to_nat m ≤ length pdata)%nat →
  let '(o, p, r) := Part000.ringbuf_read obj pdata n strict in
  r = m ∧
  p = take (Z.to_nat m) (contents obj) ++ drop (Z.to_nat m) pdata ∧
  good o ∧ size o = size obj ∧ used o = used obj - m ∧
  contents o = drop (Z.to_nat m) (contents obj).
Proof.
  intros Hg Hn Hmode m Hp. unfold Part000.ringbuf_read.
  pose proof Hg as [(Hs & Hlen & Hu & Hf & Hr) [Hrear Hus]].
  unfold is_u16 in Hn.
  destruct ((n =? 0) || (used obj =? 0)) eqn:Hz.
  { assert (m = 0) as ->.
    { apply orb_true_iff in Hz as [?%Z.eqb_eq|?%Z.eqb_eq]; lia. }
    simpl. split_and!; try done. lia. }
  replace (strict && (n >? used obj)) with false.
  2:{ destruct Hmode as [->|Hle]; [done|].
      symmetry. apply andb_false_iff. right.
      rewrite Z.gtb_ltb. apply Z.ltb_ge. lia. }
  replace (if n >? used obj then used obj else n) with m
    by (subst m; destruct (Z.gtb_spec n (used obj)); lia).
  destruct (read_loop_spec obj pdata m Hg) as (H1 & H2 & H3 & H4 & _ & _ & _ & H5);
    [lia|done|].
  destruct (for_loop (Z.to_nat m) 0 read_byte (obj, pdata)) as [o p].
  simpl in *. done.
Qed.

(** ** The overwriting write of ringbuf.c *)

(** One round of [ringbuf_writeForce] below the largest capacity: the
    byte is appended, and on a full buffer the oldest byte is dropped. *)
Lemma push_force_spec obj b :
  good obj → size obj < UINT16_MAX →
  let o := RingbufC.push_force obj b in
  size o = size obj ∧
  used o = Z.min (size obj) (used obj + 1) ∧
  front o = (if used obj <? size obj then front obj
             else (front obj + 1) mod size obj) ∧
  contents o
  = drop (if used obj <? size obj then 0%nat else 1%nat) (contents obj) ++ [b].
Proof.
  intros Hg Hmax o. subst o. unfold RingbufC.push_force.
  destruct (Z.ltb_spec (used obj) (size obj)) as [Hlt|Hge].
  - pose proof (push_used obj b Hg Hlt) as Hu.
    replace (used (RingbufC.push obj b) >? size (RingbufC.push obj b)) with false.
    2:{ symmetry. rewrite Z.gtb_ltb. apply Z.ltb_ge. rewrite Hu. simpl. lia. }
    rewrite Hu, push_contents by done. split_and!; try done. lia.
  - pose proof Hg as [(Hs & Hlen & Hu & Hf & Hr) [Hrear Hus]].
    assert (Hfull : used obj = size obj) by lia.
    assert (Hrf : rear obj = front obj).
    { rewrite Hrear, Hfull, mod_add_n, Z.mod_small; lia. }
    assert (Hu1 : used (RingbufC.push obj b) = size obj + 1).
    { simpl. rewrite Hfull. apply u16_small. lia. }
    replace (used (RingbufC.push obj b) >? size (RingbufC.push obj b)) with true.
    2:{ symmetry. apply Z.gtb_lt. rewrite Hu1. simpl. lia. }
    split_and!; try done.
    + simpl. lia.
    + simpl. apply u16_rem; lia.
    + unfold contents. simpl used. rewrite Hfull.
      replace (drop 1 (window obj 0 (size obj)))
        with (window obj (0 + 1) (size obj - 1))
        by (symmetry; apply (window_drop obj 0 (size obj) 1); lia).
      match goal with |- window ?O 0 _ = _ =>
        replace (window O 0 (size obj)) with (window O 0 ((size obj - 1) + 1))
          by (f_equal; lia)
      end.
      rewrite window_app by lia. f_equal.
      * apply window_ext. intros j Hj. simpl.
        rewrite u16_rem, mod_add_l by lia.
        replace (front obj + 1 + (0 + j)) with (front obj + (0 + 1 + j)) by lia.
        apply load_store_ne; [lia|arith|].
        rewrite Hrf. rewrite <- (Z.mod_small (front obj) (size obj)) at 1 by lia.
        replace (front obj) with (front obj + 0) at 1 by lia.
        intros Heq. apply mod_offset_inj in Heq; lia.
      * rewrite window_one. simpl. f_equal.
        rewrite u16_rem, mod_add_l by lia.
        replace (front obj + 1 + (0 + (size obj - 1))) with (front obj + size obj) by lia.
        rewrite mod_add_n, Z.mod_small, <- Hrf by lia.
        apply load_store_eq; lia.
Qed.

(** [k] rounds: the request is appended and the bytes that no longer
    fit are dropped from the front. *)
Lemma push_force_loop_spec pdata k obj i :
  good obj → size obj < UINT16_MAX →
  let o := for_loop k i (λ len o, RingbufC.push_force o (load pdata len)) obj in
  let over := Z.max 0 (used obj + Z.of_nat k - size obj) in
  good o ∧ size o = size obj ∧
  used o = Z.min (size obj) (used obj + Z.of_nat k) ∧
  front o = (front obj + over) mod size obj ∧
  contents o
  = drop (Z.to_nat over) (contents obj ++ slice pdata i (Z.of_nat k)).
Proof.
  intros Hg Hmax.
  pose proof Hg as [(Hs & Hlen & Hu & Hf & Hr) [Hrear Hus]].
  induction k as [|k IH]; intros o over.
  - subst o over. simpl for_loop.
    replace (Z.max 0 (used obj + Z.of_nat 0 - size obj)) with 0 by lia.
    rewrite slice_nil, app_nil_r, Z.add_0_r, Z.mod_small by lia.
    split_and!; try done; lia.
  - subst o. rewrite for_loop_S.
    destruct IH as (Hgo & Hsz & Huo & Hfo & Hco).
    set (o := for_loop k i _ obj) in *.
    set (over0 := Z.max 0 (used obj + Z.of_nat k - size obj)) in *.
    destruct (push_force_spec o (load pdata (i + Z.of_nat k)) Hgo) as (P1 & P2 & P3 & P4);
      [lia|].
    split_and!.
    + apply push_force_good; [done|lia].
    + lia.
    + lia.
    + rewrite P3, Hfo. destruct (Z.ltb_spec (used o) (size o)).
      * f_equal. lia.
      * rewrite Hsz, mod_add_l by lia. f_equal. lia.
    + rewrite P4, Hco.
      rewrite Nat2Z.inj_succ, <- Z.add_1_r, slice_snoc, app_assoc by lia.
      assert (Hlen0 : length (contents obj ++ slice pdata i (Z.of_nat k))
                      = Z.to_nat (used obj + Z.of_nat k)).
      { rewrite length_app, contents_length, slice_length. lia. }
      destruct (Z.ltb_spec (used o) (size o)).
      * replace (Z.to_nat over) with 0%nat by lia.
        replace (Z.to_nat over0) with 0%nat by lia. by rewrite !drop_0.
      * rewrite drop_drop.
        replace (Z.to_nat over0 + 1)%nat with (Z.to_nat over) by lia.
        by rewrite (drop_app_le (contents obj ++ slice pdata i (Z.of_nat k)))
          by lia.
Qed.

(** What [ringbuf_writeForce] of ringbuf.c does to a well-formed object
    below the largest capacity. *)
Lemma ringbuf_writeForce_spec obj pdata n :
  good obj → size obj < UINT16_MAX → is_u16 n →
  let o := fst (RingbufC.ringbuf_writeForce obj pdata n) in
  let over := Z.max 0 (used obj + n - size obj) in
  good o ∧ size o = size obj ∧
  used o = Z.min (size obj) (used obj + n) ∧
  front o = (front obj + over) mod size obj ∧
  contents o = drop (Z.to_nat over) (contents obj ++ slice pdata 0 n).
Proof.
  intros Hg Hmax Hn.
  pose proof Hg as [(Hs & Hlen & Hu & Hf & Hr) [Hrear Hus]].
  unfold is_u16 in Hn. unfold RingbufC.ringbuf_writeForce.
  destruct (Z.eqb_spec n 0) as [->|Hn0]; simpl orb; cbv iota.
  { simpl. replace (Z.max 0 (used obj + 0 - size obj)) with 0 by lia.
    rewrite slice_nil, app_nil_r, Z.add_0_r, Z.mod_small by lia.
    split_and!; try done; lia. }
  destruct (Z.eqb_spec (size obj) 0); [lia|]. simpl fst.
  pose proof (push_force_loop_spec pdata (Z.to_nat n) obj 0 Hg Hmax) as Hloop.
  simpl in Hloop. rewrite Z2Nat.id in Hloop by lia. exact Hloop.
Qed.

Lemma ringbuf_writeForce_count obj pdata n :
  size obj ≠ 0 → snd (RingbufC.ringbuf_writeForce obj pdata n) = n.
Proof.
  intros Hs. unfold RingbufC.ringbuf_writeForce.
  destruct (Z.eqb_spec n 0) as [->|]; [done|].
  by destruct (Z.eqb_spec (size obj) 0).
Qed.

(** The same for [ringbuf_writeForce] of ringbuf.c, below the largest
    capacity. *)
Lemma force_write_evicts_oldest_ringbuf_c obj pdata n :
  good obj → size obj < UINT16_MAX → is_u16 n →
  size obj - used obj < n ≤ size obj →
  let o := fst (RingbufC.ringbuf_writeForce obj pdata n) in
  let overlap := n - (size obj - used obj) in
  snd (RingbufC.ringbuf_writeForce obj pdata n) = n ∧
  front o = (front obj + overlap) mod size obj ∧
  used o = size obj ∧
  contents o = drop (Z.to_nat overlap) (contents obj) ++ slice pdata 0 n.
Proof.
  intros Hg Hmax Hn Hc o overlap.
  pose proof Hg as [(Hs & Hlen & Hu & Hf & Hr) [Hrear Hus]].
  destruct (ringbuf_writeForce_spec obj pdata n Hg Hmax Hn)
    as (_ & _ & H2 & H3 & H4).
  replace (Z.max 0 (used obj + n - size obj)) with overlap in * by lia.
  split_and!; try done.
  - apply ringbuf_writeForce_count. lia.
  - fold o in H2. lia.
  - fold o in H4. rewrite H4. apply drop_app_le. rewrite contents_length. lia.
Qed.

(** ** The write of part_000 *)

(** The storage after [k] rounds of the write loop, slot by slot,
    counted from the old write cursor. *)
Lemma put_loop_load obj pdata k j :
  0 < size obj ≤ UINT16_MAX → 0 ≤ rear obj < size obj →
  length (arr obj) = Z.to_nat (size obj) →
  Z.of_nat k ≤ size obj → 0 ≤ j < size obj →
  load (arr (for_loop k 0 (Part000.put pdata) obj)) ((rear obj + j) mod size obj)
  = if j <? Z.of_nat k then load pdata j
    else load (arr obj) ((rear obj + j) mod size obj).
Proof.
  intros Hs Hr Hlen Hk Hj. induction k as [|k IH].
  - simpl. destruct (Z.ltb_spec j (Z.of_nat 0)); [lia|done].
  - rewrite for_loop_S.
    destruct (put_loop_cursors obj pdata k Hs Hr) as (H1 & H2 & H3 & H4 & H5).
    set (o := for_loop k 0 (Part000.put pdata) obj) in *.
    simpl. rewrite H4, Z.add_0_l.
    pose proof (Z.mod_pos_bound (rear obj + Z.of_nat k) (size obj)).
    destruct (decide (j = Z.of_nat k)) as [->|Hne].
    + rewrite load_store_eq by (rewrite ?H5, ?Hlen; lia).
      destruct (Z.ltb_spec (Z.of_nat k) (Z.of_nat (S k))); [done|lia].
    + rewrite load_store_ne; [|arith|arith|].
      * rewrite IH by lia.
        destruct (Z.ltb_spec j (Z.of_nat k)), (Z.ltb_spec j (Z.of_nat (S k)));
          try done; lia.
      * intros Heq. apply mod_offset_inj in Heq; lia.
Qed.

(** The logical contents after [n] bytes went into the storage behind
    the old write cursor and the cursors were set for an overlap of [d]
    bytes. *)
Lemma contents_after_put obj pdata n d :
  good obj → 0 ≤ n ≤ size obj → 0 ≤ d ≤ used obj →
  used obj + n - d ≤ size obj → used obj + n - size obj ≤ d →
  contents
    (mk_ringbuf (arr (for_loop (Z.to_nat n) 0 (Part000.put pdata) obj))
       (size obj) (used obj + n - d)
       ((front obj + d) mod size obj)
       ((rear obj + n) mod size obj))
  = drop (Z.to_nat d) (contents obj) ++ slice pdata 0 n.
Proof.
  intros Hg Hn Hd Hfit Hover.
  pose proof Hg as [(Hs & Hlen & Hu & Hf & Hr) [Hrear Hus]].
  unfold contents at 1. simpl used.
  replace (used obj + n - d) with ((used obj - d) + n) by lia.
  rewrite window_app by lia. f_equal.
  - unfold contents. rewrite window_drop by lia.
    apply window_ext. intros j Hj. simpl.
    rewrite mod_add_l by lia.
    replace ((front obj + d + (0 + j)) mod size obj)
      with ((rear obj + (d + j - used obj + size obj)) mod size obj).
    2:{ rewrite Hrear, mod_add_l by lia. apply (mod_shift _ _ 1). lia. }
    rewrite put_loop_load by lia.
    destruct (Z.ltb_spec (d + j - used obj + size obj) (Z.of_nat (Z.to_nat n)));
      [lia|].
    f_equal. rewrite Hrear, mod_add_l by lia. apply (mod_shift _ _ 1). lia.
  - apply list_eq. intros j.
    destruct (decide (Z.of_nat j < n)) as [Hj|Hj].
    + rewrite window_lookup, slice_lookup by done. simpl. f_equal.
      rewrite mod_add_l by lia.
      replace ((front obj + d + (0 + (used obj - d) + Z.of_nat j)) mod size obj)
        with ((rear obj + Z.of_nat j) mod size obj).
      2:{ rewrite Hrear, mod_add_l by lia. f_equal. lia. }
      rewrite put_loop_load by lia.
      destruct (Z.ltb_spec (Z.of_nat j) (Z.of_nat (Z.to_nat n))); [|lia].
      done.
    + rewrite !lookup_ge_None_2;
        [done|rewrite ?window_length, ?slice_length; lia..].
Qed.

(** What [ringbuf_write] of part_000 does to a well-formed object. *)
Lemma ringbuf_write_flag_spec obj pdata n (force : bool) :
  good obj → is_u16 n →
  let space := if force then size obj else size obj - used obj in
  let o := fst (Part000.ringbuf_write obj pdata n force) in
  (space < n → Part000.ringbuf_write obj pdata n force = (obj, 0)) ∧
  (n ≤ space →
   let d := Z.max 0 (used obj + n - size obj) in
   snd (Part000.ringbuf_write obj pdata n force) = n ∧
   good o ∧ size o = size obj ∧ used o = used obj + n - d ∧
   front o = (front obj + d) mod size obj ∧
   contents o = drop (Z.to_nat d) (contents obj) ++ slice pdata 0 n).
Proof.
  intros Hg Hn space o.
  pose proof Hg as [(Hs & Hlen & Hu & Hf & Hr) [Hrear Hus]].
  pose proof (ringbuf_write_flag_good obj pdata n force Hg Hn) as Hgo.
  subst o. revert Hgo. unfold Part000.ringbuf_write. unfold is_u16 in Hn.
  destruct (Z.eqb_spec n 0) as [->|Hn0]; simpl negb.
  { simpl. intros _. split; [done|]. intros _.
    replace (Z.max 0 (used obj + 0 - size obj)) with 0 by lia.
    rewrite slice_nil, app_nil_r, Z.add_0_r, Z.mod_small by lia.
    split_and!; try done; lia. }
  destruct (Z.eqb_spec (size obj) 0); [lia|]. simpl orb. cbv iota.
  replace (if force then size obj else u16 (size obj - used obj)) with space.
  2:{ subst space. destruct force; [done|]. symmetry. apply u16_small. arith. }
  destruct (Z.gtb_spec n space) as [Hgt|Hle].
  { intros _. split; [done|]. intros ?. lia. }
  replace (if n <? space then n else space) with n
    by (destruct (Z.ltb_spec n space); lia).
  destruct (put_loop_cursors obj pdata (Z.to_nat n) Hs Hr) as (H1 & H2 & H3 & H4 & H5).
  set (o := for_loop (Z.to_nat n) 0 (Part000.put pdata) obj) in *.
  rewrite Z2Nat.id in H4 by lia.
  intros Hgo. split; [lia|]. intros _.
  set (d := Z.max 0 (used obj + n - size obj)).
  assert (Hsp : space ≤ size obj) by (subst space; destruct force; lia).
  destruct (force && (n >? size o - used o)) eqn:Hc.
  - apply andb_true_iff in Hc as [-> Hc%Z.gtb_lt]. rewrite H1, H2 in Hc.
    assert (Hd : d = n - (size obj - used obj)) by lia.
    rewrite H1, H2, H3 in *. simpl in Hgo |- *.
    rewrite (u16_small (n - _)) in * by arith.
    rewrite u16_rem in * by arith. rewrite <- Hd in *.
    split_and!; try done; try lia.
    rewrite <- (contents_after_put obj pdata n d) by (try done; lia).
    f_equal. unfold set_used, set_front. simpl. rewrite H1, H4. f_equal. lia.
  - assert (Hd : d = 0).
    { apply andb_false_iff in Hc as [->|Hc].
      - subst space. lia.
      - rewrite Z.gtb_ltb in Hc. apply Z.ltb_ge in Hc. rewrite H1, H2 in Hc. lia. }
    rewrite H2 in *. simpl in Hgo |- *.
    rewrite u16_small in * by arith.
    split_and!; try done; try lia.
    + rewrite H3, Hd, Z.add_0_r, Z.mod_small; lia.
    + rewrite <- (contents_after_put obj pdata n d) by (try done; lia).
      f_equal. unfold set_used. fold o. rewrite H1, H3, H4, Hd, Z.add_0_r.
      rewrite (Z.mod_small (front obj)) by lia. f_equal. lia.
Qed.

(** Eviction by the overwriting write of part_000, for every capacity:
    when the request exceeds the free space but not the capacity,
    [front] advances by the overlap, [used] becomes the capacity and
    the contents are the old ones without the evicted oldest bytes,
    followed by the request. *)
Lemma force_write_evicts_oldest_part_000 obj pdata n :
  good obj → is_u16 n → size obj - used obj < n ≤ size obj →
  let o := fst (Part000.ringbuf_write obj pdata n true) in
  let overlap := n - (size obj - used obj) in
  snd (Part000.ringbuf_write obj pdata n true) = n ∧
  front o = (front obj + overlap) mod size obj ∧
  used o = size obj ∧
  contents o = drop (Z.to_nat overlap) (contents obj) ++ slice pdata 0 n.
Proof.
  intros Hg Hn Hc o overlap.
  destruct (ringbuf_write_flag_spec obj pdata n true Hg Hn) as [_ Hacc].
  destruct Hacc as (H1 & _ & _ & H2 & H3 & H4); [lia|].
  replace (Z.max 0 (used obj + n - size obj)) with overlap in * by lia.
  split_and!; try done. fold o in H2. lia.
Qed.

Lemma put_loop_used pdata k obj :
  used (for_loop k 0 (Part000.put pdata) obj) = used obj.
Proof. by apply (for_loop_rule (λ _ o, used o = used obj)). Qed.

Lemma put_loop_size pdata k obj :
  size (for_loop k 0 (Part000.put pdata) obj) = size obj.
Proof. by apply (for_loop_rule (λ _ o, size o = size obj)). Qed.

(** The loop of ringbuf.c counts [used] up byte by byte; the loop of
    part_000 leaves [used] for the end.  The storage and the write
    cursor go the same way. *)
Lemma push_loop_put_loop pdata k obj :
  is_u16 (used obj) →
  for_loop k 0 (λ i o, RingbufC.push o (load pdata i)) obj
  = set_used (for_loop k 0 (Part000.put pdata) obj)
      (u16 (used obj + Z.of_nat k)).
Proof.
  intros Hu. induction k as [|k IH].
  - simpl. rewrite Z.add_0_r, u16_small by done. by destruct obj.
  - rewrite !for_loop_S, IH.
    set (o := for_loop k 0 (Part000.put pdata) obj).
    unfold RingbufC.push, Part000.put, set_used, set_rear, set_arr. simpl.
    rewrite u16_succ. do 2 f_equal. lia.
Qed.

(** The round trip in part_000, in either write mode and either read
    mode. *)
Lemma write_read_round_trip_part_000 a C data out obj (force strict : bool) :
  is_u16 C → length a = Z.to_nat C → ringbuf_init a C = Some obj →
  Z.of_nat (length data) ≤ C → (length data ≤ length out)%nat →
  let N := Z.of_nat (length data) in
  let '(o1, w) := Part000.ringbuf_write obj data N force in
  let '(o2, p, r) := Part000.ringbuf_read o1 out N strict in
  w = N ∧ r = N ∧
  take (length data) p = data ∧
  drop (length data) p = drop (length data) out ∧
  ringbuf_isEmpty o2 = true.
Proof.
  intros HC Ha Hinit HN Hout N.
  pose proof (ringbuf_init_good a C obj HC Ha Hinit) as Hg.
  assert (Hobj : size obj = C ∧ used obj = 0).
  { unfold ringbuf_init in Hinit. destruct (C <=? 0); [done|].
    by injection Hinit as <-. }
  destruct Hobj as [Hsz Hu0].
  assert (HN16 : is_u16 N) by (unfold is_u16 in *; lia).
  destruct (ringbuf_write_flag_spec obj data N force Hg HN16) as [_ Hacc].
  destruct Hacc as (Hw & Hg1 & Hs1 & Hu1 & _ & Hc1);
    [destruct force; lia|].
  destruct (Part000.ringbuf_write obj data N force) as [o1 w].
  simpl in Hw, Hg1, Hs1, Hu1, Hc1.
  replace (Z.max 0 (used obj + N - size obj)) with 0 in * by lia.
  assert (Hc0 : contents obj = []) by (unfold contents; rewrite window_nil; [done|lia]).
  rewrite Hc0, slice_all in Hc1. simpl in Hc1.
  pose proof (ringbuf_read_flag_spec o1 out N strict Hg1 HN16) as Hread.
  replace (Z.min N (used o1)) with N in Hread by lia.
  destruct (Part000.ringbuf_read o1 out N strict) as [[o2 p] r].
  destruct Hread as (Hr & Hp & _ & _ & Hu2 & _); [right; lia|lia|].
  subst N. rewrite Nat2Z.id in Hp. rewrite Hc1, take_ge in Hp by done.
  split_and!; try done.
  - by rewrite Hp, take_app_length.
  - by rewrite Hp, drop_app_length.
  - unfold ringbuf_isEmpty. apply Z.eqb_eq. lia.
Qed.

(** ** The character search *)

Lemma index_of_bounds ch l c :
  index_of ch l = Some c → 0 ≤ c < Z.of_nat (length l).
Proof.
  revert c. induction l as [|x l IH]; intros c; simpl; [done|].
  destruct (x =? ch).
  - intros [= <-]. lia.
  - destruct (index_of ch l) as [c'|]; simpl; [|done].
    intros [= <-]. specialize (IH c' eq_refl). lia.
Qed.

(** The first occurrence: the byte is there, and not before. *)
Lemma index_of_Some ch l c :
  index_of ch l = Some c →
  l !! Z.to_nat c = Some ch ∧
  ∀ j, (j < Z.to_nat c)%nat → l !! j ≠ Some ch.
Proof.
  revert c. induction l as [|x l IH]; intros c; simpl; [done|].
  destruct (Z.eqb_spec x ch) as [->|Hne].
  - intros [= <-]. split; [done|]. intros j Hj. simpl in Hj. lia.
  - destruct (index_of ch l) as [c'|] eqn:Hc'; simpl; [|done].
    intros [= <-]. destruct (IH c' eq_refl) as [Hat Hbefore].
    pose proof (index_of_bounds _ _ _ Hc').
    replace (Z.to_nat (Z.succ c')) with (S (Z.to_nat c')) by lia.
    split; [done|]. intros [|j] Hj; simpl.
    + congruence.
    + apply Hbefore. lia.
Qed.

Lemma index_of_None ch l : index_of ch l = None → ch ∉ l.
Proof.
  induction l as [|x l IH]; simpl; [intros _; apply not_elem_of_nil|].
  destruct (Z.eqb_spec x ch) as [->|Hne]; [done|].
  destruct (index_of ch l); simpl; [done|]. intros _.
  apply not_elem_of_cons. split; [done|by apply IH].
Qed.

(** The loop of [ringbuf_strchr] looks at the slots of the relative
    indices [index + count], ..., [index + used - 1]; any fuel of at
    least [used - count] rounds gives the same result. *)
Lemma strchr_loop_spec fuel obj index ch count :
  0 < size obj ≤ UINT16_MAX → 0 ≤ front obj < size obj →
  used obj ≤ UINT16_MAX → 0 ≤ index → 0 ≤ count ≤ used obj →
  (Z.to_nat (used obj - count) ≤ fuel)%nat →
  strchr_loop fuel obj index ch
    ((front obj + (index + count)) mod size obj) count
  = match index_of ch (window obj (index + count) (used obj - count)) with
    | Some c => (index + count + c) mod used obj
    | None => -1
    end.
Proof.
  intros Hs Hf Hu Hi. revert count.
  induction fuel as [|fuel IH]; intros count Hc Hfuel.
  - rewrite window_nil by lia. done.
  - simpl. destruct (Z.ltb_spec count (used obj)) as [Hlt|Hge].
    + rewrite (window_cons obj (index + count)) by lia. simpl.
      pose proof (Z.mod_pos_bound (front obj + (index + count)) (size obj)).
      destruct (_ =? ch).
      * rewrite Z.add_0_r. apply Z.rem_mod_nonneg; lia.
      * rewrite u16_rem, mod_succ_l, u16_small by arith.
        replace (front obj + (index + count) + 1)
          with (front obj + (index + (count + 1))) by lia.
        rewrite IH by lia.
        replace (index + (count + 1)) with (index + count + 1) by lia.
        replace (used obj - (count + 1)) with (used obj - count - 1) by lia.
        destruct (index_of ch _); simpl; [|done]. f_equal. lia.
    + rewrite window_nil by lia. done.
Qed.

(** What [ringbuf_strchr] computes: the first occurrence among the
    [used] slots from relative index [index] on, taken modulo [used]. *)
Lemma ringbuf_strchr_spec obj index ch :
  good obj → is_u16 index →
  ringbuf_strchr obj index ch
  = if index >=? used obj then -1
    else match index_of ch (window obj index (used obj)) with
         | Some c => (index + c) mod used obj
         | None => -1
         end.
Proof.
  intros [(Hs & Hlen & Hu & Hf & Hr) [Hrear Hus]] Hi. unfold is_u16 in Hi.
  unfold ringbuf_strchr. destruct (index >=? used obj); [done|].
  rewrite u16_rem by lia.
  pose proof (strchr_loop_spec (Z.to_nat (used obj)) obj index ch 0) as Hl.
  rewrite !Z.add_0_r, Z.sub_0_r in Hl. apply Hl; lia.
Qed.

(** From relative index 0 the search is the one of the specification:
    the relative index of the first occurrence among the stored bytes,
    or -1 when the byte is not stored. *)
Lemma ringbuf_strchr_from_front obj ch :
  good obj →
  ringbuf_strchr obj 0 ch
  = match index_of ch (contents obj) with Some c => c | None => -1 end.
Proof.
  intros Hg. rewrite ringbuf_strchr_spec; [|done|by_compute].
  pose proof Hg as [(Hs & Hlen & Hu & Hf & Hr) [Hrear Hus]].
  destruct (Z.geb_spec 0 (used obj)) as [Hz|Hpos].
  - unfold contents. by rewrite window_nil by lia.
  - fold (contents obj).
    destruct (index_of ch (contents obj)) as [c|] eqn:Hc; [|done].
    apply index_of_bounds in Hc. rewrite contents_length in Hc.
    rewrite Z.add_0_l. apply Z.mod_small. lia.
Qed.

(** ** The examples of the specification *)

(** The example of the specification, in both files. *)
Lemma force_write_example :
  let obj := mk_ringbuf [1; 2; 3; 4] 4 4 0 0 in
  contents obj = [1; 2; 3; 4] ∧
  contents (fst (RingbufC.ringbuf_writeForce obj [5; 6] 2)) = [3; 4; 5; 6] ∧
  used (fst (RingbufC.ringbuf_writeForce obj [5; 6] 2)) = 4 ∧
  contents (fst (Part000.ringbuf_write obj [5; 6] 2 true)) = [3; 4; 5; 6] ∧
  used (fst (Part000.ringbuf_write obj [5; 6] 2 true)) = 4.
Proof. by_compute. Qed.

(** The example of the specification: capacity 8, [front = 6],
    [used = 5], logical bytes "cd\0ab"; the search for 'b' from
    relative index 0 finds it at relative index 4, across the wrap. *)
Lemma strchr_wraparound_example :
  let obj := mk_ringbuf [0; 97; 98; 0; 0; 0; 99; 100] 8 5 6 3 in
  contents obj = [99; 100; 0; 97; 98] ∧
  ringbuf_strchr obj 0 98 = 4 ∧
  ringbuf_strlen obj 0 = 2.
Proof. by_compute. Qed.

(** ** The substring search *)



Lemma load_in_range (l : list Z) j :
  0 ≤ j < Z.of_nat (length l) → l !! Z.to_nat j = Some (load l j).
Proof.
  intros Hj. unfold load.
  destruct (lookup_lt_is_Some_2 l (Z.to_nat j)) as [x ->]; [lia|done].
Qed.




Lemma window_contents obj p len :
  0 ≤ p → 0 ≤ len → p + len ≤ used obj →
  window obj p len
  = take (Z.to_nat len) (drop (Z.to_nat p) (contents obj)).
Proof.
  intros Hp Hl Hfit. unfold contents.
  rewrite window_drop by lia. rewrite window_take by lia. done.
Qed.
(** ** Peek, modify and fill *)

(** The loop of [ringbuf_peek] copies a window to the start of the
    caller's buffer. *)
Lemma peek_loop_out obj index pdata k :
  0 < size obj ≤ UINT16_MAX → 0 ≤ front obj < size obj → 0 ≤ index →
  (k ≤ length pdata)%nat →
  for_loop k 0
    (λ i p, store p i
              (load (arr obj)
                 (Z.rem ((front obj + index) mod size obj + i) (size obj))))
    pdata
  = window obj index (Z.of_nat k) ++ drop k pdata.
Proof.
  intros Hs Hf Hi. induction k as [|k IH]; intros Hk.
  - by rewrite window_nil.
  - rewrite for_loop_S, IH by lia.
    rewrite Nat2Z.inj_succ, <- Z.add_1_r, window_app, window_one by lia.
    rewrite Z.add_0_l. unfold store. rewrite Nat2Z.id.
    rewrite insert_app_r_alt by (rewrite window_length; lia).
    rewrite window_length, Nat2Z.id, Nat.sub_diag.
    destruct (lookup_lt_is_Some_2 pdata k) as [x Hx]; [lia|].
    rewrite (drop_S _ _ _ Hx). simpl. rewrite <- app_assoc. simpl.
    pose proof (Z.mod_pos_bound (front obj + index) (size obj)).
    rewrite Z.rem_mod_nonneg, mod_add_l by lia.
    by rewrite Z.add_assoc.
Qed.

(** Storing [k] values into consecutive slots from [base] on: the
    storage afterwards, slot by slot, counted from [base]. *)
Lemma store_run_load (a : list Z) sz base (val : Z → Z) k j :
  0 < sz → 0 ≤ base → length a = Z.to_nat sz →
  Z.of_nat k ≤ sz → 0 ≤ j < sz →
  load (for_loop k 0 (λ i a, store a (Z.rem (base + i) sz) (val i)) a)
    ((base + j) mod sz)
  = if j <? Z.of_nat k then val j else load a ((base + j) mod sz).
Proof.
  intros Hs Hb Hlen Hk Hj. induction k as [|k IH].
  - simpl. destruct (Z.ltb_spec j (Z.of_nat 0)); [lia|done].
  - rewrite for_loop_S. rewrite Z.add_0_l.
    assert (Hl : length (for_loop k 0
                           (λ i a, store a (Z.rem (base + i) sz) (val i)) a)
                 = length a).
    { apply (for_loop_rule (λ _ x, length x = length a)); [done|].
      intros ? ? _ ?. by rewrite length_store. }
    rewrite Z.rem_mod_nonneg by lia.
    pose proof (Z.mod_pos_bound (base + Z.of_nat k) sz).
    destruct (decide (j = Z.of_nat k)) as [->|Hne].
    + rewrite load_store_eq by (rewrite ?Hl, ?Hlen; lia).
      destruct (Z.ltb_spec (Z.of_nat k) (Z.of_nat (S k))); [done|lia].
    + rewrite load_store_ne; [|arith|arith|].
      * rewrite IH by lia.
        destruct (Z.ltb_spec j (Z.of_nat k)), (Z.ltb_spec j (Z.of_nat (S k)));
          try done; lia.
      * intros Heq. apply mod_offset_inj in Heq; lia.
Qed.

Lemma store_run_length (a : list Z) sz base (val : Z → Z) k :
  length (for_loop k 0 (λ i a, store a (Z.rem (base + i) sz) (val i)) a)
  = length a.
Proof.
  apply (for_loop_rule (λ _ x, length x = length a)); [done|].
  intros ? ? _ ?. by rewrite length_store.
Qed.


(** ** The string length *)

Lemma strlen_loop_spec fuel obj index count :
  0 < size obj ≤ UINT16_MAX → 0 ≤ front obj < size obj →
  used obj ≤ UINT16_MAX → 0 ≤ index → 0 ≤ count ≤ used obj →
  (Z.to_nat (used obj - count) ≤ fuel)%nat →
  strlen_loop fuel obj ((front obj + (index + count)) mod size obj) count
  = match index_of 0 (window obj (index + count) (used obj - count)) with
    | Some c => count + c
    | None => used obj
    end.
Proof.
  intros Hs Hf Hu Hi. revert count.
  induction fuel as [|fuel IH]; intros count Hc Hfuel.
  - rewrite window_nil by lia. simpl. lia.
  - simpl. destruct (Z.ltb_spec count (used obj)) as [Hlt|Hge].
    + rewrite (window_cons obj (index + count)) by lia. simpl.
      pose proof (Z.mod_pos_bound (front obj + (index + count)) (size obj)).
      destruct (_ =? 0); simpl.
      * lia.
      * rewrite u16_rem, mod_succ_l, u16_small by arith.
        replace (front obj + (index + count) + 1)
          with (front obj + (index + (count + 1))) by lia.
        rewrite IH by lia.
        replace (index + (count + 1)) with (index + count + 1) by lia.
        replace (used obj - (count + 1)) with (used obj - count - 1) by lia.
        destruct (index_of 0 _); simpl; lia.
    + rewrite window_nil by lia. simpl. lia.
Qed.
(** ** The two overwriting writes side by side *)

Lemma ringbuf_eq o1 o2 :
  arr o1 = arr o2 → size o1 = size o2 → used o1 = used o2 →
  front o1 = front o2 → rear o1 = rear o2 → o1 = o2.
Proof. destruct o1, o2. simpl. by intros -> -> -> -> ->. Qed.

(** Byte by byte the two loops store the same bytes into the same
    slots. *)
Lemma push_force_loop_stores pdata k obj :
  let F := for_loop k 0 (λ len o, RingbufC.push_force o (load pdata len)) obj in
  let P := for_loop k 0 (Part000.put pdata) obj in
  arr F = arr P ∧ rear F = rear P ∧ size F = size P.
Proof.
  induction k as [|k IH]; [done|].
  intros F P. subst F P. rewrite !for_loop_S.
  destruct IH as (Ha & Hr & Hs).
  set (F := for_loop k 0 _ obj) in *. set (P := for_loop k 0 (Part000.put pdata) obj) in *.
  unfold RingbufC.push_force.
  destruct (_ >? _); simpl; by rewrite Ha, Hr, Hs.
Qed.

Lemma write_flag_stores obj pdata n (force : bool) :
  n ≠ 0 → size obj ≠ 0 →
  n ≤ (if force then size obj else u16 (size obj - used obj)) →
  let o := fst (Part000.ringbuf_write obj pdata n force) in
  let P := for_loop (Z.to_nat n) 0 (Part000.put pdata) obj in
  arr o = arr P ∧ rear o = rear P.
Proof.
  intros Hn Hs Hfit. unfold Part000.ringbuf_write.
  destruct (Z.eqb_spec n 0); [done|]. destruct (Z.eqb_spec (size obj) 0); [done|].
  simpl orb. cbv iota.
  set (space := if force then size obj else u16 (size obj - used obj)) in *.
  destruct (Z.gtb_spec n space); [lia|].
  replace (if n <? space then n else space) with n
    by (destruct (Z.ltb_spec n space); lia).
  by destruct (force && _).
Qed.
(** The storage after a run of [k] stores from relative index [index]
    on, read at relative index [p]. *)
Lemma store_run_rel (a : list Z) sz f index (val : Z → Z) k p :
  0 < sz → 0 ≤ f → length a = Z.to_nat sz →
  0 ≤ index → index + Z.of_nat k ≤ sz → 0 ≤ p < sz →
  load (for_loop k 0
          (λ i a, store a (Z.rem ((f + index) mod sz + i) sz) (val i)) a)
    ((f + p) mod sz)
  = if (index <=? p) && (p <? index + Z.of_nat k) then val (p - index)
    else load a ((f + p) mod sz).
Proof.
  intros Hs Hf Hlen Hi Hk Hp.
  pose proof (Z.mod_pos_bound (f + index) sz).
  destruct (Z.leb_spec index p) as [Hge|Hlt]; simpl.
  - replace ((f + p) mod sz) with (((f + index) mod sz + (p - index)) mod sz)
      by (rewrite mod_add_l by lia; f_equal; lia).
    rewrite store_run_load by lia.
    destruct (Z.ltb_spec (p - index) (Z.of_nat k)), (Z.ltb_spec p (index + Z.of_nat k));
      try done; lia.
  - replace ((f + p) mod sz)
      with (((f + index) mod sz + (p - index + sz)) mod sz)
      by (rewrite mod_add_l by lia; apply (mod_shift _ _ 1); lia).
    rewrite store_run_load by lia.
    destruct (Z.ltb_spec (p - index + sz) (Z.of_nat k)); [lia|done].
Qed.

(** What [ringbuf_peek] returns. *)
Lemma ringbuf_peek_spec obj index n pdata :
  good obj → is_u16 index → is_u16 n → (Z.to_nat n ≤ length pdata)%nat →
  (used obj ≤ index ∨ used obj - index < n →
   ringbuf_peek obj index n pdata = (pdata, false)) ∧
  (index < used obj → n ≤ used obj - index →
   ringbuf_peek obj index n pdata
   = (take (Z.to_nat n) (drop (Z.to_nat index) (contents obj))
      ++ drop (Z.to_nat n) pdata, true)).
Proof.
  intros Hg Hi Hn Hp.
  pose proof Hg as [(Hs & Hlen & Hu & Hf & Hr) [Hrear Hus]].
  unfold is_u16 in *. unfold ringbuf_peek. split.
  - intros Hc.
    destruct (Z.geb_spec index (used obj)); [done|].
    destruct (Z.gtb_spec n (used obj - index)); [done|lia].
  - intros H1 H2.
    destruct (Z.geb_spec index (used obj)); [lia|].
    destruct (Z.gtb_spec n (used obj - index)); [lia|].
    destruct (Z.eqb_spec (size obj) 0); [lia|]. simpl orb. cbv iota.
    rewrite u16_rem by lia.
    rewrite peek_loop_out by (try done; lia).
    rewrite Z2Nat.id by lia. by rewrite window_contents by lia.
Qed.

(** What [ringbuf_modify] does. *)
Lemma ringbuf_modify_spec obj index n pdata :
  good obj → is_u16 index → is_u16 n → (Z.to_nat n ≤ length pdata)%nat →
  let res := ringbuf_modify obj index n pdata in
  (used obj ≤ index ∨ used obj - index < n → res = (obj, false)) ∧
  (index < used obj → n ≤ used obj - index →
   snd res = true ∧ good (fst res) ∧
   used (fst res) = used obj ∧ front (fst res) = front obj ∧
   rear (fst res) = rear obj ∧
   contents (fst res)
   = take (Z.to_nat index) (contents obj) ++ take (Z.to_nat n) pdata
     ++ drop (Z.to_nat (index + n)) (contents obj)).
Proof.
  intros Hg Hi Hn Hp res. subst res.
  pose proof (ringbuf_modify_good obj index n pdata Hg) as Hgo.
  pose proof Hg as [(Hs & Hlen & Hu & Hf & Hr) [Hrear Hus]].
  unfold is_u16 in *. revert Hgo. unfold ringbuf_modify. intros Hgo. split.
  - intros Hc.
    destruct (Z.geb_spec index (used obj)); [done|].
    destruct (Z.gtb_spec n (used obj - index)); [done|lia].
  - intros H1 H2. revert Hgo.
    destruct (Z.geb_spec index (used obj)); [lia|].
    destruct (Z.gtb_spec n (used obj - index)); [lia|].
    destruct (Z.eqb_spec (size obj) 0); [lia|]. simpl orb. cbv iota.
    rewrite u16_rem by lia. simpl fst. simpl snd. intros Hgo.
    split_and!; try done.
    set (a' := for_loop _ _ _ _) in *.
    assert (Hload : ∀ p, 0 ≤ p < size obj →
      load a' ((front obj + p) mod size obj)
      = if (index <=? p) && (p <? index + n) then load pdata (p - index)
        else load (arr obj) ((front obj + p) mod size obj)).
    { intros p Hp'. subst a'.
      rewrite (store_run_rel (arr obj) (size obj) (front obj) index
                 (λ i, load pdata i) (Z.to_nat n) p) by lia.
      by rewrite Z2Nat.id by lia. }
    unfold contents at 1. simpl used.
    replace (used obj) with (index + (n + (used obj - index - n))) at 1 by lia.
    rewrite !window_app by lia. f_equal; [|f_equal].
    + unfold contents. rewrite window_take by lia.
      apply window_ext. intros j Hj. simpl. rewrite Hload by lia.
      destruct (Z.leb_spec index (0 + j)); [lia|done].
    + apply list_eq. intros j.
      destruct (decide (Z.of_nat j < n)) as [Hj|Hj].
      * rewrite window_lookup by done. simpl. rewrite Hload by lia.
        destruct (Z.leb_spec index (0 + index + Z.of_nat j)); [|lia].
        destruct (Z.ltb_spec (0 + index + Z.of_nat j) (index + n)); [|lia].
        simpl. rewrite lookup_take_lt by lia.
        replace (0 + index + Z.of_nat j - index) with (Z.of_nat j) by lia.
        pose proof (load_in_range pdata (Z.of_nat j)) as Hl.
        rewrite Nat2Z.id in Hl. symmetry. apply Hl. lia.
      * rewrite !lookup_ge_None_2;
          [done|rewrite ?window_length, ?length_take; lia..].
    + unfold contents. rewrite window_drop by lia.
      replace (used obj - (index + n)) with (used obj - index - n) by lia.
      apply window_ext. intros j Hj. simpl. rewrite Hload by lia.
      destruct (Z.ltb_spec (0 + index + n + j) (index + n)); [lia|].
      by rewrite andb_false_r.
Qed.




(** What [ringbuf_strlen] computes. *)
Lemma ringbuf_strlen_spec obj index :
  good obj → is_u16 index →
  ringbuf_strlen obj index
  = if index >=? used obj then 0
    else match index_of 0 (window obj index (used obj)) with
         | Some c => c
         | None => used obj
         end.
Proof.
  intros [(Hs & Hlen & Hu & Hf & Hr) [Hrear Hus]] Hi. unfold is_u16 in Hi.
  unfold ringbuf_strlen. destruct (index >=? used obj); [done|].
  rewrite u16_rem by lia.
  pose proof (strlen_loop_spec (Z.to_nat (used obj)) obj index 0) as Hl.
  rewrite !Z.add_0_r, Z.sub_0_r in Hl. rewrite Hl by lia.
  by destruct (index_of 0 _).
Qed.

(** * The claims *)

(** C1.  In ringbuf.c the states reachable at the largest capacity do
    not all satisfy the ring invariant: initialise a buffer of 65535
    bytes, fill it with one write of 65535 bytes (the invariant holds,
    [used = 65535]), then write one byte with [ringbuf_writeForce].
    The 16-bit [used] wraps to 0 and [front] stays, while [rear] moves
    on to 1. *)
Theorem invariant_broken_at_max_capacity :
  let obj0 := mk_ringbuf (replicate (Z.to_nat 65535) 0) 65535 0 0 0 in
  let obj1 := exec (OpWrite (replicate (Z.to_nat 65535) 7) 65535) obj0 in
  let obj2 := exec (OpWriteForce [9] 1) obj1 in
  reachable ringbuf_c obj2 ∧
  ring_inv obj1 ∧ used obj1 = 65535 ∧
  used obj2 = 0 ∧ front obj2 = 0 ∧ rear obj2 = 1 ∧ ¬ ring_inv obj2.
Proof.
  intros obj0 obj1 obj2. subst obj2 obj1 obj0.
  generalize (length_replicate (Z.to_nat 65535) 0).
  generalize (replicate (Z.to_nat 65535) 0) as a.
  generalize (replicate (Z.to_nat 65535) 7) as d.
  intros d a Ha.
  assert (H16 : is_u16 65535) by (unfold is_u16, UINT16_MAX; lia).
  assert (Hg0 : good (mk_ringbuf a 65535 0 0 0)).
  { unfold good, wf, ring_inv. cbn [arr size used front rear].
    change ((0 + 0) mod 65535) with 0. unfold UINT16_MAX. lia. }
  split.
  { apply reach_step; [|exact I|unfold op_args, is_u16, UINT16_MAX; lia].
    apply reach_step; [|exact I|exact H16].
    by apply (reach_init _ a 65535). }
  unfold exec.
  destruct (ringbuf_write_spec _ d 65535 Hg0 H16) as (_ & Hg1 & Hs1 & Hu1 & Hf1 & _).
  cbn [size used front] in Hs1, Hu1, Hf1.
  remember (fst (RingbufC.ringbuf_write (mk_ringbuf a 65535 0 0 0) d 65535))
    as obj1 eqn:E1.
  clear E1.
  assert (Hr1 : rear obj1 = 0).
  { destruct Hg1 as [_ [-> _]]. rewrite Hs1, Hu1, Hf1. reflexivity. }
  split; [apply Hg1|]. split; [lia|].
  assert (Hu1' : used obj1 = 65535) by lia.
  clear Hg1 Hu1. destruct obj1 as [a1 s1 u1 f1 r1].
  cbn [size used front rear] in Hs1, Hu1', Hf1, Hr1. subst.
  vm_compute. split_and!; try reflexivity.
  intros [H _]. discriminate H.
Qed.

(** C2.  A resynchronisation for the fully wrapped full buffer of
    capacity 4, [front = rear = 1] and [used = 4], is accepted, but the
    object records [used = 0]: the buffer is taken to be empty. *)
Theorem updatePointer_full_request_recorded_empty :
  ringbuf_updatePointer (mk_ringbuf [1; 2; 3; 4] 4 0 0 0) 1 1 4
  = (mk_ringbuf [1; 2; 3; 4] 4 0 1 1, true).
Proof. reflexivity. Qed.

(** C3 as stated fails for ringbuf.c: a request of three bytes on an
    empty buffer of capacity 2 returns 3, and the third byte is stored
    (over the first). *)
Lemma writeForce_count_exceeds_capacity :
  RingbufC.ringbuf_writeForce (mk_ringbuf [0; 0] 2 0 0 0) [1; 2; 3] 3
  = (mk_ringbuf [3; 2] 2 2 1 1, 3) ∧
  ¬ (snd (RingbufC.ringbuf_writeForce (mk_ringbuf [0; 0] 2 0 0 0) [1; 2; 3] 3)
     ≤ 2).
Proof. split; [reflexivity|]. vm_compute. intros H. by apply H. Qed.

(** C3, amended.  On a well-formed buffer of capacity [C] and for every
    requested length [L]:
    - the overwriting write of part_000 ([force = true]) returns at most
      [C]; a request with [L > C] is rejected as a whole: it returns 0
      and changes nothing;
    - [ringbuf_writeForce] of ringbuf.c has no cap: it returns [L], and
      (for [C] below the largest [uint16_t]) it stores every byte of the
      request, dropping the bytes that no longer fit from the front, so
      that for [L >= C] the buffer ends up with the last [C] bytes of
      the request. *)
Theorem force_write_beyond_capacity obj pdata n :
  good obj → is_u16 n →
  snd (Part000.ringbuf_write obj pdata n true) ≤ size obj ∧
  (size obj < n → Part000.ringbuf_write obj pdata n true = (obj, 0)) ∧
  snd (RingbufC.ringbuf_writeForce obj pdata n) = n ∧
  (size obj < UINT16_MAX →
   let o := fst (RingbufC.ringbuf_writeForce obj pdata n) in
   used o = Z.min (size obj) (used obj + n) ∧
   contents o
   = drop (Z.to_nat (used obj + n - size obj)) (contents obj ++ slice pdata 0 n) ∧
   (size obj ≤ n → contents o = slice pdata (n - size obj) (size obj))).
Proof.
  intros Hg Hn.
  pose proof Hg as [(Hs & Hlen & Hu & Hf & Hr) [Hrear Hus]].
  destruct (ringbuf_write_flag_spec obj pdata n true Hg Hn) as [Hrej Hacc].
  split_and!.
  - destruct (decide (size obj < n)) as [Hgt|Hle].
    + rewrite Hrej by done. simpl. lia.
    + destruct Hacc as [-> _]; lia.
  - done.
  - apply ringbuf_writeForce_count. lia.
  - intros Hmax o.
    destruct (ringbuf_writeForce_spec obj pdata n Hg Hmax Hn)
      as (_ & _ & Hu' & _ & Hc).
    fold o in Hu', Hc.
    replace (Z.to_nat (Z.max 0 (used obj + n - size obj)))
      with (Z.to_nat (used obj + n - size obj)) in Hc by lia.
    split_and!; try done.
    intros Hge. rewrite Hc.
    unfold is_u16 in Hn.
    rewrite drop_app_ge by (rewrite contents_length; lia).
    rewrite contents_length. unfold slice.
    replace (seqZ 0 n) with (seqZ 0 ((n - size obj) + size obj))
      by (f_equal; lia).
    rewrite seqZ_app, fmap_app by lia.
    rewrite drop_app_length'; [done|].
    rewrite length_fmap, length_seqZ. lia.
Qed.

Lemma force_write_beyond_capacity_witness :
  let obj := mk_ringbuf [1; 2; 3] 3 2 0 2 in
  snd (Part000.ringbuf_write obj [5; 6; 7; 8] 4 true) ≤ 3 ∧
  Part000.ringbuf_write obj [5; 6; 7; 8] 4 true = (obj, 0) ∧
  snd (RingbufC.ringbuf_writeForce obj [5; 6; 7; 8] 4) = 4 ∧
  used (fst (RingbufC.ringbuf_writeForce obj [5; 6; 7; 8] 4)) = 3 ∧
  contents (fst (RingbufC.ringbuf_writeForce obj [5; 6; 7; 8] 4)) = [6; 7; 8].
Proof.
  intros obj.
  destruct (force_write_beyond_capacity obj [5; 6; 7; 8] 4)
    as (H1 & H2 & H3 & H4); [by_compute..|].
  destruct H4 as (H4 & _ & H5); [by_compute|].
  split_and!.
  - exact H1.
  - apply H2. by_compute.
  - exact H3.
  - exact H4.
  - apply H5. by_compute.
Defined.

(** C4.  The scan of [ringbuf_strchr] does not stop at the end of the
    valid region when it starts behind relative index 0.  Write "abx"
    into a buffer of capacity 4 and take the 'x' back with
    [ringbuf_remove (-1)]: the stored bytes are "ab", and 'x' is still
    in slot 2.  The search for 'x' from relative index 1 looks at
    [used = 2] slots, finds the stale 'x' behind the valid region and
    returns [(1 + 1) % 2 = 0], the index of 'a'; 'x' does not occur at
    the relative indices 1 .. [used - 1]. *)
Theorem strchr_scans_past_valid_region :
  let obj0 := mk_ringbuf [0; 0; 0; 0] 4 0 0 0 in
  let obj1 := fst (RingbufC.ringbuf_write obj0 [97; 98; 120] 3) in
  let obj := fst (ringbuf_remove obj1 (-1)) in
  contents obj = [97; 98] ∧
  drop 1 (contents obj) = [98] ∧
  ringbuf_strchr obj 1 120 = 0 ∧
  ringbuf_strchr obj 1 120 ≠ -1.
Proof.
  vm_compute. split_and!; try reflexivity. discriminate.
Qed.

(** C5.  Round trip in ringbuf.c: on a freshly initialised buffer of
    capacity [C], writing [N ≤ C] bytes and then reading [N] bytes
    returns the count [N] both times; the caller's buffer then starts
    with exactly the written bytes, in their order (what lies behind
    them is untouched), and [ringbuf_isEmpty] holds again. *)
Theorem write_read_round_trip a C data out obj :
  is_u16 C → length a = Z.to_nat C → ringbuf_init a C = Some obj →
  Z.of_nat (length data) ≤ C → (length data ≤ length out)%nat →
  let N := Z.of_nat (length data) in
  let '(o1, w) := RingbufC.ringbuf_write obj data N in
  let '(o2, p, r) := RingbufC.ringbuf_read o1 out N in
  w = N ∧ r = N ∧
  take (length data) p = data ∧
  drop (length data) p = drop (length data) out ∧
  ringbuf_isEmpty o2 = true.
Proof.
  intros HC Ha Hinit HN Hout N.
  pose proof (ringbuf_init_good a C obj HC Ha Hinit) as Hg.
  assert (Hobj : size obj = C ∧ used obj = 0).
  { unfold ringbuf_init in Hinit. destruct (C <=? 0); [done|].
    by injection Hinit as <-. }
  destruct Hobj as [Hsz Hu0].
  assert (HN16 : is_u16 N) by (unfold is_u16 in *; lia).
  destruct (ringbuf_write_spec obj data N Hg HN16) as (Hw & Hg1 & Hs1 & Hu1 & _ & Hc1).
  destruct (RingbufC.ringbuf_write obj data N) as [o1 w]. simpl in Hw, Hg1, Hs1, Hu1, Hc1.
  replace (Z.min N (size obj - used obj)) with N in * by lia.
  assert (Hc0 : contents obj = []) by (unfold contents; rewrite window_nil; [done|lia]).
  rewrite Hc0, slice_all in Hc1. simpl in Hc1.
  pose proof (ringbuf_read_spec o1 out N Hg1 HN16) as Hread.
  replace (Z.min N (used o1)) with N in Hread by lia.
  destruct (RingbufC.ringbuf_read o1 out N) as [[o2 p] r].
  destruct Hread as (Hr & Hp & _ & _ & Hu2 & _); [lia|].
  subst N. rewrite Nat2Z.id in Hp. rewrite Hc1, take_ge in Hp by done.
  split_and!; try done.
  - by rewrite Hp, take_app_length.
  - by rewrite Hp, drop_app_length.
  - unfold ringbuf_isEmpty. apply Z.eqb_eq. lia.
Qed.

Lemma write_read_round_trip_witness :
  let '(o1, w) := RingbufC.ringbuf_write (mk_ringbuf [0; 0; 0; 0] 4 0 0 0) [7; 8; 9] 3 in
  let '(o2, p, r) := RingbufC.ringbuf_read o1 [0; 0; 0; 0; 0] 3 in
  w = 3 ∧ r = 3 ∧ take 3 p = [7; 8; 9] ∧ drop 3 p = [0; 0] ∧
  ringbuf_isEmpty o2 = true.
Proof.
  apply (write_read_round_trip [0; 0; 0; 0] 4 [7; 8; 9] [0; 0; 0; 0; 0]
           (mk_ringbuf [0; 0; 0; 0] 4 0 0 0));
    [unfold is_u16, UINT16_MAX; lia | reflexivity | reflexivity
    | simpl; lia | simpl; lia].
Defined.

(** C6.  Strict read in part_000 is all or nothing: when more bytes are
    requested than are stored, the read with [strictRead = true]
    returns 0 and leaves the object (so [used], [front], [rear] and the
    stored bytes) and the caller's buffer as they are; the read with
    [strictRead = false] returns [used], copies all stored bytes to the
    start of the caller's buffer and leaves [used = 0]. *)
Theorem strict_read_all_or_nothing obj pdata n :
  good obj → is_u16 n → used obj < n →
  (Z.to_nat (used obj) ≤ length pdata)%nat →
  Part000.ringbuf_read obj pdata n true = (obj, pdata, 0) ∧
  (let '(o, p, r) := Part000.ringbuf_read obj pdata n false in
   r = used obj ∧
   take (Z.to_nat (used obj)) p = contents obj ∧
   used o = 0 ∧ contents o = []).
Proof.
  intros Hg Hn Hlt Hp. split.
  - unfold Part000.ringbuf_read.
    destruct ((n =? 0) || (used obj =? 0)); [done|].
    by replace (n >? used obj) with true by (symmetry; apply Z.gtb_lt; lia).
  - pose proof (ringbuf_read_flag_spec obj pdata n false Hg Hn (or_introl eq_refl))
      as Hread.
    destruct Hg as [(_ & _ & Hu & _) _].
    replace (Z.min n (used obj)) with (used obj) in Hread by lia.
    destruct (Part000.ringbuf_read obj pdata n false) as [[o p] r].
    destruct (Hread Hp) as (Hr & Hpo & _ & _ & Hu2 & Hc).
    split_and!; [done| |lia|].
    + rewrite Hpo.
      rewrite (take_ge (contents obj)) by (rewrite contents_length; lia).
      rewrite take_app_length'; [done|by rewrite contents_length].
    + rewrite Hc. apply drop_ge. rewrite contents_length. lia.
Qed.

Lemma strict_read_all_or_nothing_witness :
  let obj := mk_ringbuf [30; 0; 0; 10; 20] 5 3 3 1 in
  Part000.ringbuf_read obj [0; 0; 0; 0; 0] 5 true = (obj, [0; 0; 0; 0; 0], 0) ∧
  (let '(o, p, r) := Part000.ringbuf_read obj [0; 0; 0; 0; 0] 5 false in
   r = 3 ∧ take 3 p = [10; 20; 30] ∧ used o = 0 ∧ contents o = []).
Proof.
  intros obj.
  apply (strict_read_all_or_nothing obj [0; 0; 0; 0; 0] 5).
  - by_compute.
  - by_compute.
  - simpl. lia.
  - simpl. lia.
Defined.

(** C7.  A full buffer of the largest capacity, 65535: the overwriting
    write of ringbuf.c of one byte wraps the 16-bit [used] to 0 instead
    of keeping it at the capacity; [front] does not advance, and the
    buffer that was full reports itself empty. *)
Theorem writeForce_on_full_buffer_of_max_capacity :
  let obj := mk_ringbuf (replicate (Z.to_nat 65535) 0) 65535 65535 0 0 in
  let res := RingbufC.ringbuf_writeForce obj [9] 1 in
  good obj ∧ ringbuf_isFull obj = true ∧
  snd res = 1 ∧ used (fst res) = 0 ∧ front (fst res) = 0 ∧
  rear (fst res) = 1 ∧ ringbuf_isEmpty (fst res) = true.
Proof.
  intros obj res. split.
  - unfold good, wf, ring_inv, obj. cbn [arr size used front rear].
    rewrite length_replicate.
    change ((0 + 65535) mod 65535) with 0. unfold UINT16_MAX. lia.
  - subst res obj. generalize (replicate (Z.to_nat 65535) 0). intros a.
    by_compute.
Qed.

(** C8 as stated fails on an empty buffer: after three bytes were
    written and read, the buffer is empty with both cursors on slot 3;
    [ringbuf_remove] with length 5 (so [abs length >= used]) returns 0
    through its first guard and leaves the cursors where they are. *)
Lemma remove_on_empty_keeps_cursors :
  let obj1 := fst (RingbufC.ringbuf_write (mk_ringbuf [0; 0; 0; 0] 4 0 0 0)
                     [1; 2; 3] 3) in
  let obj := fst (fst (RingbufC.ringbuf_read obj1 [0; 0; 0] 3)) in
  let res := ringbuf_remove obj 5 in
  used obj ≤ Z.abs 5 ∧
  front (fst res) = 3 ∧ rear (fst res) = 3 ∧
  ¬ (front (fst res) = 0 ∧ rear (fst res) = 0 ∧ used (fst res) = 0).
Proof.
  vm_compute. split_and!; [discriminate|reflexivity|reflexivity|].
  intros [H _]. discriminate H.
Qed.

(** C8, amended.  On a well-formed buffer and for a length other than
    [INT_MIN], [ringbuf_remove] returns a non-negative count and
    - on an empty buffer, or with length 0, returns 0 and changes nothing;
    - on a non-empty buffer with [abs length >= used] (length not 0)
      discards everything, sets [front], [rear] and [used] to zero and
      returns the old [used];
    - with [0 < length < used] advances [front] by [length], drops the
      [length] oldest bytes and returns [length];
    - with [-used < length < 0] moves [rear] back by [-length], drops
      the [-length] newest bytes and returns [-length]. *)
Theorem remove_semantics obj n :
  good obj → INT_MIN < n ≤ INT_MAX →
  let res := ringbuf_remove obj n in
  0 ≤ snd res ∧
  (n = 0 ∨ used obj = 0 → res = (obj, 0)) ∧
  (n ≠ 0 → 0 < used obj ≤ Z.abs n →
   res = (mk_ringbuf (arr obj) (size obj) 0 0 0, used obj)) ∧
  (0 < n < used obj →
   res = (mk_ringbuf (arr obj) (size obj) (used obj - n)
            ((front obj + n) mod size obj) (rear obj), n) ∧
   contents (fst res) = drop (Z.to_nat n) (contents obj)) ∧
  (- used obj < n < 0 →
   res = (mk_ringbuf (arr obj) (size obj) (used obj + n)
            (front obj) ((rear obj + n) mod size obj), - n) ∧
   contents (fst res) = take (Z.to_nat (used obj + n)) (contents obj)).
Proof.
  intros Hg Hn res.
  pose proof Hg as [(Hs & Hlen & Hu & Hf & Hr) [Hrear Hus]].
  assert (Hfifo : 0 < n < used obj →
    res = (mk_ringbuf (arr obj) (size obj) (used obj - n)
             ((front obj + n) mod size obj) (rear obj), n)).
  { intros Hc. subst res. unfold ringbuf_remove.
    destruct (Z.eqb_spec n 0); [lia|]. destruct (Z.eqb_spec (used obj) 0); [lia|].
    simpl orb. cbv iota.
    destruct (Z.geb_spec (Z.abs n) (used obj)); [lia|].
    destruct (Z.gtb_spec n 0); [|lia].
    by rewrite u16_rem, !u16_small by arith. }
  assert (Hlifo : - used obj < n < 0 →
    res = (mk_ringbuf (arr obj) (size obj) (used obj + n)
             (front obj) ((rear obj + n) mod size obj), - n)).
  { intros Hc. subst res. unfold ringbuf_remove.
    destruct (Z.eqb_spec n 0); [lia|]. destruct (Z.eqb_spec (used obj) 0); [lia|].
    simpl orb. cbv iota.
    destruct (Z.geb_spec (Z.abs n) (used obj)); [lia|].
    destruct (Z.gtb_spec n 0); [lia|].
    rewrite u16_rem, !u16_small by arith.
    by replace ((rear obj + size obj + n) mod size obj)
      with ((rear obj + n) mod size obj)
      by (symmetry; apply (mod_shift _ _ 1); lia). }
  assert (Hall : n ≠ 0 → 0 < used obj ≤ Z.abs n →
    res = (mk_ringbuf (arr obj) (size obj) 0 0 0, used obj)).
  { intros Hn0 Hc. subst res. unfold ringbuf_remove.
    destruct (Z.eqb_spec n 0); [lia|]. destruct (Z.eqb_spec (used obj) 0); [lia|].
    simpl orb. cbv iota.
    destruct (Z.geb_spec (Z.abs n) (used obj)); [|lia].
    by rewrite u16_small by arith. }
  assert (Hnone : n = 0 ∨ used obj = 0 → res = (obj, 0)).
  { intros Hc. subst res. unfold ringbuf_remove.
    destruct (Z.eqb_spec n 0); [done|].
    destruct (Z.eqb_spec (used obj) 0); [done|lia]. }
  split_and!; try done.
  - destruct (decide (n = 0 ∨ used obj = 0)) as [Hc|Hc].
    { by rewrite Hnone. }
    destruct (decide (used obj ≤ Z.abs n)).
    { rewrite Hall by lia. simpl. lia. }
    destruct (decide (0 < n)).
    { rewrite Hfifo by lia. simpl. lia. }
    rewrite Hlifo by lia. simpl. lia.
  - intros Hc. split; [by apply Hfifo|]. rewrite Hfifo by done. simpl.
    rewrite <- (contents_after_read obj n) by (try done; lia).
    unfold set_used, set_front. simpl. by rewrite u16_small by arith.
  - intros Hc. split; [by apply Hlifo|]. rewrite Hlifo by done. simpl.
    unfold contents. rewrite window_take by lia. simpl used.
    by apply window_ext.
Qed.

Lemma remove_semantics_witness :
  let obj := mk_ringbuf [97; 98; 99; 100] 4 4 0 0 in
  ringbuf_remove obj (-2) = (mk_ringbuf [97; 98; 99; 100] 4 2 0 2, 2) ∧
  contents obj = [97; 98; 99; 100] ∧
  contents (fst (ringbuf_remove obj (-2))) = [97; 98] ∧
  ringbuf_remove obj 1 = (mk_ringbuf [97; 98; 99; 100] 4 3 1 0, 1) ∧
  ringbuf_remove obj (-7) = (mk_ringbuf [97; 98; 99; 100] 4 0 0 0, 4).
Proof.
  intros obj.
  assert (Hg : good obj) by by_compute.
  destruct (remove_semantics obj (-2) Hg) as (_ & _ & _ & _ & H2); [by_compute|].
  destruct (remove_semantics obj 1 Hg) as (_ & _ & _ & H1 & _); [by_compute|].
  destruct (remove_semantics obj (-7) Hg) as (_ & _ & H7 & _); [by_compute|].
  destruct H2 as [H2 H2c]; [by_compute|].
  destruct H1 as [H1 _]; [by_compute|].
  split_and!.
  - exact H2.
  - reflexivity.
  - exact H2c.
  - exact H1.
  - apply H7; by_compute.
Defined.

(** C9.  The non-overwriting writes of the two files: on every object
    with [used ≤ size] and every request that fits into the free space
    [size - used], [ringbuf_write] of ringbuf.c and [ringbuf_write] of
    part_000 with [force = false] return the same count and the same
    object.  On a request longer than the free space ringbuf.c
    truncates: it does what a request of exactly [size - used] bytes
    does and returns [size - used] (on a well-formed object the buffer
    is then full and holds the old bytes followed by the first
    [size - used] bytes of the request); part_000 rejects: it returns 0
    and leaves the object as it is. *)
Theorem write_variants_truncate_vs_reject obj pdata n :
  0 ≤ used obj ≤ size obj → size obj ≤ UINT16_MAX → is_u16 n →
  let space := size obj - used obj in
  (n ≤ space →
   RingbufC.ringbuf_write obj pdata n = Part000.ringbuf_write obj pdata n false) ∧
  (space < n →
   RingbufC.ringbuf_write obj pdata n = RingbufC.ringbuf_write obj pdata space ∧
   snd (RingbufC.ringbuf_write obj pdata n) = space ∧
   (good obj →
    used (fst (RingbufC.ringbuf_write obj pdata n)) = size obj ∧
    contents (fst (RingbufC.ringbuf_write obj pdata n))
    = contents obj ++ slice pdata 0 space) ∧
   Part000.ringbuf_write obj pdata n false = (obj, 0)).
Proof.
  intros Hu Hs Hn space. unfold is_u16 in Hn. split.
  - intros Hfit. rewrite ringbuf_write_unfold by done.
    replace (Z.min n (size obj - used obj)) with n by lia.
    unfold Part000.ringbuf_write.
    destruct (Z.eqb_spec n 0) as [->|Hn0]; simpl orb; [done|].
    destruct (Z.eqb_spec (size obj) 0) as [Hz|Hz]; cbv iota; [lia|].
    rewrite (u16_small (size obj - used obj)) by lia.
    replace (n >? size obj - used obj) with false
      by (symmetry; rewrite Z.gtb_ltb; apply Z.ltb_ge; lia).
    replace (if n <? size obj - used obj then n else size obj - used obj)
      with n by (destruct (Z.ltb_spec n (size obj - used obj)); lia).
    rewrite push_loop_put_loop by (unfold is_u16; lia).
    rewrite put_loop_used, Z2Nat.id by lia. done.
  - intros Hover. split_and!.
    + rewrite !ringbuf_write_unfold by (unfold is_u16; lia).
      by replace (Z.min n (size obj - used obj))
        with (Z.min space (size obj - used obj)) by lia.
    + rewrite ringbuf_write_unfold by done. simpl. lia.
    + intros Hg.
      destruct (ringbuf_write_spec obj pdata n Hg) as (_ & _ & _ & H1 & _ & H2);
        [done|].
      rewrite H1, H2.
      replace (Z.min n (size obj - used obj)) with space by lia.
      split; [lia|done].
    + unfold Part000.ringbuf_write.
      destruct ((n =? 0) || (size obj =? 0)); [done|].
      rewrite (u16_small (size obj - used obj)) by lia.
      by replace (n >? size obj - used obj) with true
        by (symmetry; apply Z.gtb_lt; lia).
Qed.

Lemma write_variants_truncate_vs_reject_witness :
  let obj := mk_ringbuf [1; 2; 0; 0] 4 2 0 2 in
  RingbufC.ringbuf_write obj [7; 8; 9] 1
  = Part000.ringbuf_write obj [7; 8; 9] 1 false ∧
  RingbufC.ringbuf_write obj [7; 8; 9] 3 = RingbufC.ringbuf_write obj [7; 8; 9] 2 ∧
  snd (RingbufC.ringbuf_write obj [7; 8; 9] 3) = 2 ∧
  (used (fst (RingbufC.ringbuf_write obj [7; 8; 9] 3)) = 4 ∧
   contents (fst (RingbufC.ringbuf_write obj [7; 8; 9] 3)) = [1; 2] ++ [7; 8]) ∧
  Part000.ringbuf_write obj [7; 8; 9] 3 false = (obj, 0).
Proof.
  intros obj.
  assert (Hu : 0 ≤ used obj ≤ size obj) by (simpl; lia).
  assert (Hs : size obj ≤ UINT16_MAX) by (unfold UINT16_MAX; simpl; lia).
  assert (Hg : good obj) by by_compute.
  split.
  - apply (write_variants_truncate_vs_reject obj [7; 8; 9] 1 Hu Hs);
      [unfold is_u16, UINT16_MAX; lia | simpl; lia].
  - destruct (write_variants_truncate_vs_reject obj [7; 8; 9] 3 Hu Hs)
      as [_ H]; [unfold is_u16, UINT16_MAX; lia|].
    destruct H as (H1 & H2 & H3 & H4); [simpl; lia|].
    exact (conj H1 (conj H2 (conj (H3 Hg) H4))).
Defined.

(** C10.  A successful [ringbuf_updatePointer] leaves [used] below the
    capacity: the [used] argument is reduced modulo the capacity before
    the check, so the recorded value is [used mod size].  A request
    with [used = size] is accepted exactly when [front] and [rear] fall
    on the same slot, that is for the full buffer, and it records
    [used = 0]. *)
Theorem updatePointer_never_records_full obj f0 r0 u0 :
  0 < size obj ≤ UINT16_MAX → is_u16 f0 → is_u16 r0 → is_u16 u0 →
  let res := ringbuf_updatePointer obj f0 r0 u0 in
  (snd res = true →
   used (fst res) = u0 mod size obj ∧ used (fst res) < size obj) ∧
  (u0 = size obj →
   (snd res = true ↔ f0 mod size obj = r0 mod size obj) ∧
   (f0 mod size obj = r0 mod size obj →
    res = (mk_ringbuf (arr obj) (size obj) 0
             (f0 mod size obj) (r0 mod size obj), true))).
Proof.
  intros Hs Hf0 Hr0 Hu0 res. subst res. unfold ringbuf_updatePointer.
  unfold is_u16 in *.
  rewrite !u16_rem by lia.
  pose proof (Z.mod_pos_bound f0 (size obj)).
  pose proof (Z.mod_pos_bound r0 (size obj)).
  pose proof (Z.mod_pos_bound u0 (size obj)).
  split.
  - destruct (u0 >? size obj); [done|].
    destruct (negb _ && negb _); [done|]. simpl. intros _. lia.
  - intros ->.
    replace (size obj >? size obj) with false
      by (symmetry; rewrite Z.gtb_ltb; apply Z.ltb_ge; lia).
    rewrite Z_mod_same_full.
    set (f := f0 mod size obj) in *. set (r := r0 mod size obj) in *.
    assert (Hsame : f = r →
      (if negb (u16 (if f <=? r then r - f else size obj - f + r) =? 0)
          && negb ((u16 (if f <=? r then r - f else size obj - f + r) =? 0)
                   && (0 =? size obj))
       then (obj, false)
       else (mk_ringbuf (arr obj) (size obj) 0 f r, true))
      = (mk_ringbuf (arr obj) (size obj) 0 f r, true)).
    { intros ->. rewrite Z.leb_refl, Z.sub_diag.
      by change (u16 0 =? 0) with true. }
    split; [split|done].
    + intros Hok. destruct (decide (f = r)) as [|Hne]; [done|].
      rewrite (u16_small (if f <=? r then _ else _)) in Hok
        by (destruct (Z.leb_spec f r); arith).
      replace ((if f <=? r then r - f else size obj - f + r) =? 0) with false
        in Hok by (symmetry; apply Z.eqb_neq; destruct (Z.leb_spec f r); lia).
      done.
    + intros Hfr. by rewrite Hsame.
Qed.

Lemma updatePointer_never_records_full_witness :
  let res := ringbuf_updatePointer (mk_ringbuf [1; 2; 3; 4] 4 0 0 0) 1 1 4 in
  (used (fst res) = 0 ∧ used (fst res) < 4) ∧
  res = (mk_ringbuf [1; 2; 3; 4] 4 0 1 1, true).
Proof.
  destruct (updatePointer_never_records_full
              (mk_ringbuf [1; 2; 3; 4] 4 0 0 0) 1 1 4) as [H1 H2];
    [by_compute..|].
  destruct (H2 eq_refl) as [_ H3].
  split; [exact (H1 eq_refl) | exact (H3 eq_refl)].
Defined.

(** * Further properties of the code *)

(** Closed side conditions, also on [nat]. *)
Ltac concrete :=
  repeat split; first [ vm_compute; done | vm_compute; lia | lia ].

(** X1.  In part_000 every object that is reachable from a successful
    [ringbuf_init] by calls of the interface (write with and without
    [force], read with and without [strictRead], remove, modify, peek,
    updatePointer, memset and the string scans, with arguments of
    their C types) is well formed and satisfies the ring invariant
    [rear = (front + used) mod size], [0 <= used <= size]. *)
Theorem part_000_keeps_ring_invariant obj :
  reachable part_000 obj → wf obj ∧ ring_inv obj.
Proof. apply reachable_part_000_good. Qed.

Lemma part_000_keeps_ring_invariant_witness :
  let obj := exec (OpWriteFlag [4; 5; 6] 3 true)
               (exec (OpReadFlag [0; 0] 2 true)
                  (exec (OpWriteFlag [1; 2; 3] 3 false)
                     (mk_ringbuf [0; 0; 0; 0] 4 0 0 0))) in
  wf obj ∧ ring_inv obj.
Proof.
  apply part_000_keeps_ring_invariant.
  repeat (apply reach_step; [|exact I|concrete]).
  apply (reach_init _ [0; 0; 0; 0] 4); concrete.
Defined.

(** X2.  In ringbuf.c the same holds for every capacity below 65535:
    every object reachable from a successful [ringbuf_init] by calls of
    the interface (write, writeForce, read, remove, modify, peek,
    updatePointer, memset and the string scans) is well formed and
    satisfies the ring invariant. *)
Theorem ringbuf_c_keeps_ring_invariant obj :
  reachable ringbuf_c obj → size obj < UINT16_MAX → wf obj ∧ ring_inv obj.
Proof. apply reachable_ringbuf_c_good. Qed.

Lemma ringbuf_c_keeps_ring_invariant_witness :
  let obj := exec (OpWriteForce [4; 5; 6] 3)
               (exec (OpRemove (-1))
                  (exec (OpWrite [1; 2; 3] 3)
                     (mk_ringbuf [0; 0; 0; 0] 4 0 0 0))) in
  wf obj ∧ ring_inv obj.
Proof.
  apply ringbuf_c_keeps_ring_invariant; [|concrete].
  repeat (apply reach_step; [|exact I|concrete]).
  apply (reach_init _ [0; 0; 0; 0] 4); concrete.
Defined.

(** X3.  [ringbuf_write] of ringbuf.c appends: on a well-formed buffer
    it stores the first [min length (size - used)] bytes of the request
    behind the stored bytes, in their order, and returns that count;
    no stored byte is overwritten and [front] stays. *)
Theorem write_appends_what_fits obj pdata n :
  good obj → is_u16 n → (Z.to_nat n ≤ length pdata)%nat →
  let m := Z.min n (size obj - used obj) in
  let res := RingbufC.ringbuf_write obj pdata n in
  snd res = m ∧ good (fst res) ∧
  used (fst res) = used obj + m ∧ front (fst res) = front obj ∧
  contents (fst res) = contents obj ++ take (Z.to_nat m) pdata.
Proof.
  intros Hg Hn Hp m res.
  pose proof Hg as [(Hs & Hlen & Hu & Hf & Hr) [Hrear Hus]].
  destruct (ringbuf_write_spec obj pdata n Hg Hn) as (H1 & H2 & _ & H3 & H4 & H5).
  fold m res in H1, H2, H3, H4, H5. unfold is_u16 in Hn.
  split_and!; try done.
  rewrite H5. f_equal.
  rewrite <- (Z2Nat.id m) at 1 by lia. apply slice_take. lia.
Qed.

Lemma write_appends_what_fits_witness :
  let obj := mk_ringbuf [0; 0; 1; 2] 4 2 2 0 in
  let res := RingbufC.ringbuf_write obj [7; 8; 9] 3 in
  snd res = 2 ∧ good (fst res) ∧
  used (fst res) = 4 ∧ front (fst res) = 2 ∧
  contents (fst res) = [1; 2] ++ [7; 8].
Proof.
  apply (write_appends_what_fits (mk_ringbuf [0; 0; 1; 2] 4 2 2 0) [7; 8; 9] 3);
    concrete.
Defined.

(** X4.  The two reads are one function: [ringbuf_read] of part_000
    with [strictRead = false], or with [strictRead = true] and a
    request of at most [used] bytes, returns the same object, the same
    caller's buffer and the same count as [ringbuf_read] of ringbuf.c,
    on every object and every argument. *)
Theorem read_variants_agree obj pdata n (strictRead : bool) :
  strictRead = false ∨ n ≤ used obj →
  Part000.ringbuf_read obj pdata n strictRead
  = RingbufC.ringbuf_read obj pdata n.
Proof.
  intros Hmode. unfold Part000.ringbuf_read, RingbufC.ringbuf_read.
  destruct ((n =? 0) || (used obj =? 0)); [done|].
  replace (strictRead && (n >? used obj)) with false.
  2:{ destruct Hmode as [->|Hle]; [done|].
      symmetry. apply andb_false_iff. right.
      rewrite Z.gtb_ltb. apply Z.ltb_ge. lia. }
  replace (if n >? used obj then used obj else n)
    with (if n <=? used obj then n else used obj)
    by (destruct (Z.gtb_spec n (used obj)), (Z.leb_spec n (used obj)); lia).
  done.
Qed.

Lemma read_variants_agree_witness :
  Part000.ringbuf_read (mk_ringbuf [3; 0; 1; 2] 4 3 2 1) [0; 0; 0] 2 true
  = RingbufC.ringbuf_read (mk_ringbuf [3; 0; 1; 2] 4 3 2 1) [0; 0; 0] 2.
Proof.
  apply (read_variants_agree (mk_ringbuf [3; 0; 1; 2] 4 3 2 1) [0; 0; 0] 2 true).
  right. concrete.
Defined.

(** X5.  [ringbuf_read] of ringbuf.c takes the oldest bytes: on a
    well-formed buffer it copies the [min length used] oldest stored
    bytes, in their order, to the start of the caller's buffer (the
    rest of that buffer is untouched), removes exactly these bytes and
    returns their number. *)
Theorem read_takes_oldest obj pdata n :
  good obj → is_u16 n →
  let m := Z.min n (used obj) in
  (Z.to_nat m ≤ length pdata)%nat →
  let res := RingbufC.ringbuf_read obj pdata n in
  snd res = m ∧
  snd (fst res)
  = take (Z.to_nat m) (contents obj) ++ drop (Z.to_nat m) pdata ∧
  good (fst (fst res)) ∧
  used (fst (fst res)) = used obj - m ∧
  contents (fst (fst res)) = drop (Z.to_nat m) (contents obj).
Proof.
  intros Hg Hn m Hp res.
  pose proof (ringbuf_read_spec obj pdata n Hg Hn Hp) as H. subst res.
  destruct (RingbufC.ringbuf_read obj pdata n) as [[o p] r].
  destruct H as (H1 & H2 & H3 & _ & H4 & H5). done.
Qed.

Lemma read_takes_oldest_witness :
  let obj := mk_ringbuf [3; 0; 1; 2] 4 3 2 1 in
  let res := RingbufC.ringbuf_read obj [0; 0; 0] 2 in
  snd res = 2 ∧ snd (fst res) = [1; 2] ++ [0] ∧
  good (fst (fst res)) ∧ used (fst (fst res)) = 1 ∧
  contents (fst (fst res)) = [3].
Proof.
  apply (read_takes_oldest (mk_ringbuf [3; 0; 1; 2] 4 3 2 1) [0; 0; 0] 2);
    concrete.
Defined.
(** X6.  [ringbuf_writeForce] of ringbuf.c keeps the newest bytes: on
    a well-formed buffer of a capacity below 65535 it returns [length]
    and leaves the last [min size (used + length)] bytes of the old
    contents followed by the request; [front] has advanced by the
    number of bytes that were dropped, and the ring invariant holds
    again.  This is so for every [length], also beyond the capacity. *)
Theorem writeForce_keeps_newest obj pdata n :
  good obj → size obj < UINT16_MAX → is_u16 n →
  (Z.to_nat n ≤ length pdata)%nat →
  let res := RingbufC.ringbuf_writeForce obj pdata n in
  let over := Z.max 0 (used obj + n - size obj) in
  snd res = n ∧ good (fst res) ∧
  used (fst res) = Z.min (size obj) (used obj + n) ∧
  front (fst res) = (front obj + over) mod size obj ∧
  contents (fst res)
  = drop (Z.to_nat over) (contents obj ++ take (Z.to_nat n) pdata).
Proof.
  intros Hg Hmax Hn Hp res over.
  pose proof Hg as [(Hs & _) _].
  destruct (ringbuf_writeForce_spec obj pdata n Hg Hmax Hn)
    as (H1 & _ & H2 & H3 & H4).
  fold res over in H1, H2, H3, H4. unfold is_u16 in Hn.
  split_and!; try done.
  - apply ringbuf_writeForce_count. lia.
  - rewrite H4. do 2 f_equal.
    rewrite <- (Z2Nat.id n) at 1 by lia. apply slice_take. lia.
Qed.

Lemma writeForce_keeps_newest_witness :
  let obj := mk_ringbuf [3; 0; 1; 2] 4 3 2 1 in
  let res := RingbufC.ringbuf_writeForce obj [5; 6; 7] 3 in
  snd res = 3 ∧ good (fst res) ∧ used (fst res) = 4 ∧
  front (fst res) = 0 ∧
  contents (fst res) = drop 2 ([1; 2; 3] ++ [5; 6; 7]).
Proof.
  apply (writeForce_keeps_newest (mk_ringbuf [3; 0; 1; 2] 4 3 2 1) [5; 6; 7] 3);
    concrete.
Defined.

(** X7.  [ringbuf_write] of part_000 is all or nothing in both modes.
    With [space = size] under [force] and [space = size - used]
    without, a request longer than [space] returns 0 and changes
    nothing.  A request that fits is stored whole and its length is
    returned: the bytes follow the stored ones, and under [force] the
    [used + length - size] oldest bytes are dropped first when the
    free space does not suffice.  The ring invariant holds again. *)
Theorem write_flag_all_or_nothing obj pdata n (force : bool) :
  good obj → is_u16 n → (Z.to_nat n ≤ length pdata)%nat →
  let space := if force then size obj else size obj - used obj in
  let res := Part000.ringbuf_write obj pdata n force in
  (space < n → res = (obj, 0)) ∧
  (n ≤ space →
   let over := Z.max 0 (used obj + n - size obj) in
   snd res = n ∧ good (fst res) ∧
   used (fst res) = used obj + n - over ∧
   front (fst res) = (front obj + over) mod size obj ∧
   contents (fst res)
   = drop (Z.to_nat over) (contents obj) ++ take (Z.to_nat n) pdata).
Proof.
  intros Hg Hn Hp space res. subst res.
  destruct (ringbuf_write_flag_spec obj pdata n force Hg Hn) as [Hrej Hacc].
  split; [done|]. intros Hfit over.
  destruct (Hacc Hfit) as (H1 & H2 & _ & H3 & H4 & H5).
  split_and!; try done.
  rewrite H5. f_equal. unfold is_u16 in Hn.
  rewrite <- (Z2Nat.id n) at 1 by lia. apply slice_take. lia.
Qed.

Lemma write_flag_all_or_nothing_witness :
  let obj := mk_ringbuf [3; 0; 1; 2] 4 3 2 1 in
  Part000.ringbuf_write obj [5; 6; 7] 3 false = (obj, 0) ∧
  (let res := Part000.ringbuf_write obj [5; 6; 7] 3 true in
   snd res = 3 ∧ good (fst res) ∧ used (fst res) = 4 ∧
   front (fst res) = 0 ∧
   contents (fst res) = drop 2 [1; 2; 3] ++ [5; 6; 7]).
Proof.
  intros obj. split.
  - apply (write_flag_all_or_nothing obj [5; 6; 7] 3 false); concrete.
  - apply (write_flag_all_or_nothing obj [5; 6; 7] 3 true); concrete.
Defined.

(** X8.  The two overwriting writes agree on what they both accept: on
    a well-formed buffer of a capacity below 65535 and for a request
    of at most [size] bytes, [ringbuf_writeForce] of ringbuf.c and
    [ringbuf_write] of part_000 with [force = true] return the same
    count and leave the same object (storage and cursors). *)
Theorem force_write_variants_agree obj pdata n :
  good obj → size obj < UINT16_MAX → is_u16 n → n ≤ size obj →
  RingbufC.ringbuf_writeForce obj pdata n
  = Part000.ringbuf_write obj pdata n true.
Proof.
  intros Hg Hmax Hn Hfit.
  pose proof Hg as [(Hs & Hlen & Hu & Hf & Hr) [Hrear Hus]].
  destruct (Z.eq_dec n 0) as [->|Hn0]; [done|].
  destruct (ringbuf_writeForce_spec obj pdata n Hg Hmax Hn)
    as (_ & V1 & V2 & V3 & _).
  destruct (ringbuf_write_flag_spec obj pdata n true Hg Hn) as [_ Hacc].
  destruct (Hacc Hfit) as (W0 & _ & W1 & W2 & W3 & _).
  destruct (write_flag_stores obj pdata n true) as [Wa Wr]; [done|lia|done|].
  pose proof (ringbuf_writeForce_count obj pdata n ltac:(lia)) as V0.
  assert (Hobj : fst (RingbufC.ringbuf_writeForce obj pdata n)
                 = fst (Part000.ringbuf_write obj pdata n true)).
  { destruct (push_force_loop_stores pdata (Z.to_nat n) obj) as (Fa & Fr & _).
    assert (Hloop : fst (RingbufC.ringbuf_writeForce obj pdata n)
                    = for_loop (Z.to_nat n) 0
                        (λ len o, RingbufC.push_force o (load pdata len)) obj).
    { unfold RingbufC.ringbuf_writeForce.
      destruct (Z.eqb_spec n 0); [done|].
      by destruct (Z.eqb_spec (size obj) 0); [lia|]. }
    apply ringbuf_eq.
    - by rewrite Wa, Hloop.
    - by rewrite V1, W1.
    - rewrite V2, W2. lia.
    - by rewrite V3, W3.
    - by rewrite Wr, Hloop. }
  destruct (RingbufC.ringbuf_writeForce obj pdata n) as [o1 r1].
  destruct (Part000.ringbuf_write obj pdata n true) as [o2 r2].
  simpl in *. by subst.
Qed.

Lemma force_write_variants_agree_witness :
  RingbufC.ringbuf_writeForce (mk_ringbuf [3; 0; 1; 2] 4 3 2 1) [5; 6; 7] 3
  = Part000.ringbuf_write (mk_ringbuf [3; 0; 1; 2] 4 3 2 1) [5; 6; 7] 3 true.
Proof.
  apply (force_write_variants_agree (mk_ringbuf [3; 0; 1; 2] 4 3 2 1) [5; 6; 7] 3);
    concrete.
Defined.

(** X9.  [ringbuf_peek] is a bounds-checked view: on a well-formed
    buffer it fails, leaving the caller's buffer as it is, when
    [index >= used] or [length > used - index]; otherwise it succeeds
    and the caller's buffer starts with the [length] stored bytes from
    relative index [index] on (the rest of that buffer is untouched).
    The object is not written at all. *)
Theorem peek_views_stored_bytes obj index n pdata :
  good obj → is_u16 index → is_u16 n → (Z.to_nat n ≤ length pdata)%nat →
  (used obj ≤ index ∨ used obj - index < n →
   ringbuf_peek obj index n pdata = (pdata, false)) ∧
  (index < used obj → n ≤ used obj - index →
   ringbuf_peek obj index n pdata
   = (take (Z.to_nat n) (drop (Z.to_nat index) (contents obj))
      ++ drop (Z.to_nat n) pdata, true)).
Proof. apply ringbuf_peek_spec. Qed.

Lemma peek_views_stored_bytes_witness :
  let obj := mk_ringbuf [13; 14; 15; 0; 0; 0; 11; 12] 8 5 6 3 in
  ringbuf_peek obj 3 3 [0; 0; 0] = ([0; 0; 0], false) ∧
  ringbuf_peek obj 3 2 [0; 0; 0] = ([14; 15] ++ [0], true).
Proof.
  intros obj. split.
  - apply (peek_views_stored_bytes obj 3 3 [0; 0; 0]); try concrete.
    right. concrete.
  - apply (peek_views_stored_bytes obj 3 2 [0; 0; 0]); concrete.
Defined.

(** X10.  [ringbuf_modify] edits in place: on a well-formed buffer it
    fails and changes nothing when [index >= used] or
    [length > used - index]; otherwise it succeeds, the stored bytes at
    the relative indices [index], ..., [index + length - 1] become the
    first [length] bytes of the caller's data, every other stored byte
    and the three cursors stay as they are. *)
Theorem modify_edits_in_place obj index n pdata :
  good obj → is_u16 index → is_u16 n → (Z.to_nat n ≤ length pdata)%nat →
  let res := ringbuf_modify obj index n pdata in
  (used obj ≤ index ∨ used obj - index < n → res = (obj, false)) ∧
  (index < used obj → n ≤ used obj - index →
   snd res = true ∧ good (fst res) ∧
   used (fst res) = used obj ∧ front (fst res) = front obj ∧
   rear (fst res) = rear obj ∧
   contents (fst res)
   = take (Z.to_nat index) (contents obj) ++ take (Z.to_nat n) pdata
     ++ drop (Z.to_nat (index + n)) (contents obj)).
Proof. apply ringbuf_modify_spec. Qed.

Lemma modify_edits_in_place_witness :
  let obj := mk_ringbuf [13; 14; 15; 0; 0; 0; 11; 12] 8 5 6 3 in
  ringbuf_modify obj 4 2 [7; 8] = (obj, false) ∧
  (let res := ringbuf_modify obj 1 3 [7; 8; 9] in
   snd res = true ∧ good (fst res) ∧
   used (fst res) = 5 ∧ front (fst res) = 6 ∧ rear (fst res) = 3 ∧
   contents (fst res) = [11] ++ [7; 8; 9] ++ [15]).
Proof.
  intros obj. split.
  - apply (modify_edits_in_place obj 4 2 [7; 8]); try concrete.
    right. concrete.
  - apply (modify_edits_in_place obj 1 3 [7; 8; 9]); concrete.
Defined.

(** X11.  Modify, then peek: what [ringbuf_modify] has written at a
    relative index, [ringbuf_peek] of the same index and length reads
    back. *)
Theorem peek_after_modify obj index n data out :
  good obj → is_u16 index → is_u16 n →
  index < used obj → n ≤ used obj - index →
  (Z.to_nat n ≤ length data)%nat → (Z.to_nat n ≤ length out)%nat →
  ringbuf_peek (fst (ringbuf_modify obj index n data)) index n out
  = (take (Z.to_nat n) data ++ drop (Z.to_nat n) out, true).
Proof.
  intros Hg Hi Hn H1 H2 Hd Ho.
  pose proof Hg as [(Hs & Hlen & Hu & Hf & Hr) [Hrear Hus]].
  destruct (ringbuf_modify_spec obj index n data Hg Hi Hn Hd) as [_ Hm].
  destruct (Hm H1 H2) as (_ & Hg' & Hu' & _ & _ & Hc).
  set (o := fst (ringbuf_modify obj index n data)) in *.
  destruct (ringbuf_peek_spec o index n out Hg' Hi Hn Ho) as [_ Hp].
  rewrite Hp by lia. do 2 f_equal. rewrite Hc.
  unfold is_u16 in *.
  rewrite drop_app_length'
    by (rewrite length_take, contents_length; lia).
  apply take_app_length'. rewrite length_take. lia.
Qed.

Lemma peek_after_modify_witness :
  ringbuf_peek
    (fst (ringbuf_modify (mk_ringbuf [13; 14; 15; 0; 0; 0; 11; 12] 8 5 6 3)
            1 3 [7; 8; 9])) 1 3 [0; 0; 0; 0]
  = ([7; 8; 9] ++ [0], true).
Proof.
  apply (peek_after_modify (mk_ringbuf [13; 14; 15; 0; 0; 0; 11; 12] 8 5 6 3)
           1 3 [7; 8; 9] [0; 0; 0; 0]); concrete.
Defined.



(** X13.  Peek shows what read will return: for a request of
    [1 <= length <= used] bytes, [ringbuf_peek] from relative index 0
    fills the caller's buffer exactly as [ringbuf_read] of ringbuf.c
    does. *)
Theorem peek_shows_what_read_returns obj n out :
  good obj → is_u16 n → 0 < n ≤ used obj → (Z.to_nat n ≤ length out)%nat →
  fst (ringbuf_peek obj 0 n out)
  = snd (fst (RingbufC.ringbuf_read obj out n)).
Proof.
  intros Hg Hn Hle Ho.
  destruct (ringbuf_peek_spec obj 0 n out Hg) as [_ Hp]; [concrete|done..|].
  rewrite Hp by lia. simpl.
  pose proof (ringbuf_read_spec obj out n Hg Hn) as Hr.
  replace (Z.min n (used obj)) with n in Hr by lia.
  destruct (RingbufC.ringbuf_read obj out n) as [[o p] r].
  destruct (Hr Ho) as (_ & -> & _). done.
Qed.

Lemma peek_shows_what_read_returns_witness :
  fst (ringbuf_peek (mk_ringbuf [13; 14; 15; 0; 0; 0; 11; 12] 8 5 6 3) 0 3
         [0; 0; 0; 0])
  = snd (fst (RingbufC.ringbuf_read
                (mk_ringbuf [13; 14; 15; 0; 0; 0; 11; 12] 8 5 6 3)
                [0; 0; 0; 0] 3)).
Proof.
  apply (peek_shows_what_read_returns
           (mk_ringbuf [13; 14; 15; 0; 0; 0; 11; 12] 8 5 6 3) 3 [0; 0; 0; 0]);
    concrete.
Defined.

(** X14.  [ringbuf_strlen] counts up to the first NUL: on a well-formed
    buffer the result lies between 0 and [used], it is 0 for
    [index >= used], and from relative index 0 it is the number of
    stored bytes in front of the first stored NUL, or [used] when no
    NUL is stored.  From any [index < used] the count runs over the
    [used] slots from [index] on. *)
Theorem strlen_counts_to_first_nul obj index :
  good obj → is_u16 index →
  0 ≤ ringbuf_strlen obj index ≤ used obj ∧
  (used obj ≤ index → ringbuf_strlen obj index = 0) ∧
  (index < used obj →
   ringbuf_strlen obj index
   = match index_of 0 (window obj index (used obj)) with
     | Some c => c
     | None => used obj
     end) ∧
  ringbuf_strlen obj 0
  = match index_of 0 (contents obj) with Some c => c | None => used obj end.
Proof.
  intros Hg Hi.
  pose proof Hg as [(Hs & Hlen & Hu & Hf & Hr) [Hrear Hus]].
  pose proof (ringbuf_strlen_spec obj index Hg Hi) as Hx.
  split; [|split; [|split]].
  - rewrite Hx. destruct (Z.geb_spec index (used obj)); [lia|].
    destruct (index_of 0 _) as [c|] eqn:Hc; [|lia].
    apply index_of_bounds in Hc. rewrite window_length in Hc. lia.
  - intros Hge. rewrite Hx. destruct (Z.geb_spec index (used obj)); [done|lia].
  - intros Hlt. rewrite Hx. destruct (Z.geb_spec index (used obj)); [lia|done].
  - rewrite ringbuf_strlen_spec; [|done|concrete].
    destruct (Z.geb_spec 0 (used obj)); [|done].
    unfold contents. rewrite window_nil by lia. simpl. lia.
Qed.

Lemma strlen_counts_to_first_nul_witness :
  let obj := mk_ringbuf [0; 97; 98; 0; 0; 0; 99; 100] 8 5 6 3 in
  0 ≤ ringbuf_strlen obj 3 ≤ 5 ∧
  ringbuf_strlen obj 0
  = match index_of 0 [99; 100; 0; 97; 98] with Some c => c | None => 5 end.
Proof.
  intros obj.
  destruct (strlen_counts_to_first_nul obj 3) as (H1 & _); [concrete..|].
  destruct (strlen_counts_to_first_nul obj 0) as (_ & _ & _ & H2); [concrete..|].
  split; [exact H1 | exact H2].
Defined.

(** X15.  [ringbuf_strchr] from relative index 0 is the first
    occurrence: on a well-formed buffer it returns the relative index
    of the first stored byte equal to [ch], or -1 when no stored byte
    is.  From any index the result is -1 or a relative index below
    [used]. *)
Theorem strchr_from_front_finds_first obj index ch :
  good obj → is_u16 index →
  ringbuf_strchr obj 0 ch
  = match index_of ch (contents obj) with Some c => c | None => -1 end ∧
  (ringbuf_strchr obj index ch = -1 ∨
   0 ≤ ringbuf_strchr obj index ch < used obj).
Proof.
  intros Hg Hi. split; [by apply ringbuf_strchr_from_front|].
  rewrite ringbuf_strchr_spec by done.
  destruct (Z.geb_spec index (used obj)); [by left|].
  destruct (index_of ch _); [|by left]. right.
  destruct Hg as [(_ & _ & _ & _) [_ ?]]. unfold is_u16 in Hi.
  apply Z.mod_pos_bound. lia.
Qed.

Lemma strchr_from_front_finds_first_witness :
  let obj := mk_ringbuf [0; 97; 98; 0; 0; 0; 99; 100] 8 5 6 3 in
  ringbuf_strchr obj 0 98
  = match index_of 98 [99; 100; 0; 97; 98] with Some c => c | None => -1 end ∧
  (ringbuf_strchr obj 2 98 = -1 ∨ 0 ≤ ringbuf_strchr obj 2 98 < 5).
Proof.
  intros obj.
  apply (strchr_from_front_finds_first obj 2 98); concrete.
Defined.



(** X17.  A positive [ringbuf_remove] is a read without the copy: on a
    well-formed buffer, [ringbuf_remove] with [1 <= length <= 65535]
    returns the count that [ringbuf_read] of ringbuf.c returns for the
    same length and leaves the same stored bytes; for [length < used]
    it leaves the very same object. *)
Theorem remove_front_is_read_without_copy obj k out :
  good obj → 0 < k ≤ UINT16_MAX →
  (Z.to_nat (Z.min k (used obj)) ≤ length out)%nat →
  let rm := ringbuf_remove obj k in
  let rd := RingbufC.ringbuf_read obj out k in
  snd rm = snd rd ∧
  contents (fst rm) = contents (fst (fst rd)) ∧
  (k < used obj → fst rm = fst (fst rd)).
Proof.
  intros Hg Hk Ho rm rd. subst rm rd.
  pose proof Hg as [(Hs & Hlen & Hu & Hf & Hr) [Hrear Hus]].
  pose proof (ringbuf_read_spec obj out k Hg) as Hrd.
  specialize (Hrd ltac:(unfold is_u16; lia) Ho).
  destruct (decide (used obj = 0)) as [Hz|Hnz].
  { unfold ringbuf_remove, RingbufC.ringbuf_read.
    destruct (Z.eqb_spec (used obj) 0); [|done].
    rewrite !orb_true_r. split_and!; first [done | lia]. }
  unfold ringbuf_remove.
  destruct (Z.eqb_spec k 0); [lia|]. destruct (Z.eqb_spec (used obj) 0); [done|].
  simpl orb. cbv iota.
  destruct (Z.geb_spec (Z.abs k) (used obj)) as [Hall|Hpart].
  - replace (Z.min k (used obj)) with (used obj) in Hrd by lia.
    destruct (RingbufC.ringbuf_read obj out k) as [[o p] r].
    destruct Hrd as (-> & _ & _ & _ & _ & Hc). simpl.
    rewrite u16_small by arith.
    split_and!; [done| |lia].
    rewrite Hc, drop_ge by (rewrite contents_length; lia).
    unfold contents. by rewrite window_nil.
  - destruct (Z.gtb_spec k 0); [|lia].
    replace (Z.min k (used obj)) with k in Hrd by lia.
    assert (Hobj : fst (fst (RingbufC.ringbuf_read obj out k))
                   = mk_ringbuf (arr obj) (size obj) (u16 (used obj - k))
                       (u16 (Z.rem (front obj + k) (size obj))) (rear obj)).
    { unfold RingbufC.ringbuf_read.
      destruct (Z.eqb_spec k 0); [lia|].
      destruct (Z.eqb_spec (used obj) 0); [done|]. simpl orb. cbv iota.
      destruct (Z.leb_spec k (used obj)); [|lia].
      destruct (read_loop_spec obj out k Hg) as (_ & _ & S1 & S2 & S3 & S4 & S5 & _);
        [lia|lia|].
      destruct (for_loop (Z.to_nat k) 0 read_byte (obj, out)) as [o p].
      simpl in *. rewrite u16_rem, (u16_small (used obj - k)) by arith.
      by apply ringbuf_eq. }
    destruct (RingbufC.ringbuf_read obj out k) as [[o p] r].
    destruct Hrd as (-> & _ & _ & _ & _ & _). simpl in *. subst o.
    rewrite (u16_small k) by arith. done.
Qed.

Lemma remove_front_is_read_without_copy_witness :
  let obj := mk_ringbuf [13; 14; 15; 0; 0; 0; 11; 12] 8 5 6 3 in
  snd (ringbuf_remove obj 3) = snd (RingbufC.ringbuf_read obj [0; 0; 0] 3) ∧
  contents (fst (ringbuf_remove obj 3))
  = contents (fst (fst (RingbufC.ringbuf_read obj [0; 0; 0] 3))) ∧
  fst (ringbuf_remove obj 3) = fst (fst (RingbufC.ringbuf_read obj [0; 0; 0] 3)).
Proof.
  intros obj.
  destruct (remove_front_is_read_without_copy obj 3 [0; 0; 0])
    as (H1 & H2 & H3); [concrete..|].
  split_and!; [exact H1 | exact H2 | apply H3; concrete].
Defined.

(** X18.  A negative [ringbuf_remove] takes a write back: after
    [ringbuf_write] of ringbuf.c has stored [n >= 1] bytes that fit,
    [ringbuf_remove] with length [-n] returns [n] and the stored bytes
    are the ones from before the write; if the buffer was not empty
    before, the three cursors are the old ones too. *)
Theorem remove_back_undoes_write obj pdata n :
  good obj → 0 < n ≤ size obj - used obj →
  let o1 := fst (RingbufC.ringbuf_write obj pdata n) in
  let res := ringbuf_remove o1 (- n) in
  snd res = n ∧
  contents (fst res) = contents obj ∧
  (0 < used obj →
   used (fst res) = used obj ∧ front (fst res) = front obj ∧
   rear (fst res) = rear obj).
Proof.
  intros Hg Hn o1 res. subst res.
  pose proof Hg as [(Hs & Hlen & Hu & Hf & Hr) [Hrear Hus]].
  destruct (ringbuf_write_spec obj pdata n Hg) as (_ & Hg1 & W1 & W2 & W3 & W4);
    [unfold is_u16; lia|].
  fold o1 in Hg1, W1, W2, W3, W4.
  replace (Z.min n (size obj - used obj)) with n in * by lia.
  pose proof Hg1 as [(Hs1 & _ & Hu1 & Hf1 & Hr1) [Hrear1 Hus1]].
  clearbody o1. unfold ringbuf_remove.
  destruct (Z.eqb_spec (- n) 0); [lia|]. destruct (Z.eqb_spec (used o1) 0); [lia|].
  simpl orb. cbv iota.
  destruct (Z.geb_spec (Z.abs (- n)) (used o1)) as [Hall|Hpart].
  - assert (Hz : used obj = 0) by lia. simpl.
    rewrite u16_small by arith. split_and!; [lia| |lia].
    unfold contents. simpl. rewrite Hz. by rewrite !window_nil.
  - destruct (Z.gtb_spec (- n) 0); [lia|]. simpl.
    rewrite !u16_small by arith. rewrite u16_rem by lia.
    split_and!; [lia| |intros _; split_and!; [lia|done|]].
    + unfold contents at 1. simpl.
      replace (used o1 + - n) with (used obj) by lia.
      unfold contents. apply window_ext. intros j Hj. simpl.
      assert (Hcj : contents o1 !! Z.to_nat j = contents obj !! Z.to_nat j).
      { rewrite W4. apply lookup_app_l. rewrite contents_length. lia. }
      unfold contents in Hcj. rewrite !window_lookup in Hcj by lia.
      rewrite Z2Nat.id, W1, W3 in Hcj by lia. rewrite W1, W3.
      by injection Hcj.
    + rewrite Hrear1, W1, W2, W3, Hrear.
      rewrite <- Z.add_assoc, mod_add_l by lia. apply (mod_shift _ _ 1). lia.
Qed.

Lemma remove_back_undoes_write_witness :
  let obj := mk_ringbuf [13; 0; 0; 0; 0; 0; 11; 12] 8 3 6 1 in
  let o1 := fst (RingbufC.ringbuf_write obj [7; 8] 2) in
  snd (ringbuf_remove o1 (- 2)) = 2 ∧
  contents (fst (ringbuf_remove o1 (- 2))) = contents obj ∧
  used (fst (ringbuf_remove o1 (- 2))) = 3 ∧
  front (fst (ringbuf_remove o1 (- 2))) = 6 ∧
  rear (fst (ringbuf_remove o1 (- 2))) = 1.
Proof.
  intros obj o1.
  destruct (remove_back_undoes_write obj [7; 8] 2) as (H1 & H2 & H3);
    [concrete..|].
  split; [exact H1|]. split; [exact H2|]. apply H3. concrete.
Defined.

(** X19.  [ringbuf_updatePointer] validates before it commits.  For a
    capacity [size > 0] the call succeeds exactly when [used <= size]
    and the distance from [front] to [rear] around the ring,
    [(rear - front) mod size], equals [used mod size].  On success the
    cursors are [front mod size], [rear mod size] and [used mod size],
    the storage is untouched and the ring invariant holds whatever the
    cursors were before; on failure the object is unchanged. *)
Theorem updatePointer_validates_then_commits obj f0 r0 u0 :
  0 < size obj ≤ UINT16_MAX → is_u16 f0 → is_u16 r0 → is_u16 u0 →
  let res := ringbuf_updatePointer obj f0 r0 u0 in
  (snd res = true
   ↔ u0 ≤ size obj ∧ (r0 - f0) mod size obj = u0 mod size obj) ∧
  (snd res = true →
   fst res = mk_ringbuf (arr obj) (size obj) (u0 mod size obj)
               (f0 mod size obj) (r0 mod size obj) ∧
   ring_inv (fst res)) ∧
  (snd res = false → fst res = obj).
Proof.
  intros Hs Hf0 Hr0 Hu0 res. subst res. unfold is_u16 in *.
  split; [|split]; [| |apply ringbuf_updatePointer_fail].
  - unfold ringbuf_updatePointer.
    destruct (Z.gtb_spec u0 (size obj)) as [Hgt|Hle].
    { simpl. split; [done|lia]. }
    rewrite !u16_rem by lia.
    pose proof (Z.mod_pos_bound f0 (size obj)).
    pose proof (Z.mod_pos_bound r0 (size obj)).
    pose proof (Z.mod_pos_bound u0 (size obj)).
    assert (Hspan : (r0 - f0) mod size obj
                    = if f0 mod size obj <=? r0 mod size obj
                      then r0 mod size obj - f0 mod size obj
                      else size obj - f0 mod size obj + r0 mod size obj).
    { rewrite Zminus_mod.
      destruct (Z.leb_spec (f0 mod size obj) (r0 mod size obj)).
      - apply Z.mod_small. lia.
      - rewrite <- (Z.mod_small (size obj - _ + _) (size obj)) by lia.
        apply (mod_shift _ _ (-1)). lia. }
    rewrite Hspan.
    set (len := if f0 mod size obj <=? r0 mod size obj then _ else _) in *.
    assert (0 ≤ len < size obj)
      by (subst len; destruct (Z.leb_spec (f0 mod size obj) (r0 mod size obj)); lia).
    rewrite (u16_small len) by arith.
    replace (u0 mod size obj =? size obj) with false
      by (symmetry; apply Z.eqb_neq; lia).
    rewrite andb_false_r, andb_true_r.
    destruct (Z.eqb_spec len (u0 mod size obj)); simpl; split; try done; lia.
  - intros Hok.
    assert (Hg : fst (ringbuf_updatePointer obj f0 r0 u0)
                 = mk_ringbuf (arr obj) (size obj) (u0 mod size obj)
                     (f0 mod size obj) (r0 mod size obj)).
    { revert Hok. unfold ringbuf_updatePointer.
      destruct (u0 >? size obj); [done|].
      destruct (negb _ && negb _); [done|]. intros _. simpl.
      by rewrite !u16_rem by lia. }
    split; [done|]. rewrite Hg. unfold ring_inv. simpl.
    pose proof (Z.mod_pos_bound u0 (size obj)).
    assert (Hacc : (r0 - f0) mod size obj = u0 mod size obj).
    { revert Hok. unfold ringbuf_updatePointer.
      destruct (Z.gtb_spec u0 (size obj)); [done|].
      rewrite !u16_rem by lia.
      pose proof (Z.mod_pos_bound f0 (size obj)).
      pose proof (Z.mod_pos_bound r0 (size obj)).
      set (len := if f0 mod size obj <=? r0 mod size obj then _ else _).
      assert (Hl : 0 ≤ len < size obj ∧ (r0 - f0) mod size obj = len).
      { subst len. rewrite Zminus_mod.
        destruct (Z.leb_spec (f0 mod size obj) (r0 mod size obj)).
        - split; [lia|]. apply Z.mod_small. lia.
        - split; [lia|].
          rewrite <- (Z.mod_small (size obj - _ + _) (size obj)) by lia.
          apply (mod_shift _ _ (-1)). lia. }
      destruct Hl as [Hl1 ->]. rewrite (u16_small len) by arith.
      replace (u0 mod size obj =? size obj) with false
        by (symmetry; apply Z.eqb_neq; lia).
      rewrite andb_false_r, andb_true_r.
      by destruct (Z.eqb_spec len (u0 mod size obj)). }
    split; [|lia].
    rewrite mod_add_l, <- Hacc by lia.
    rewrite Zplus_mod_idemp_r. 
    rewrite <- (Z.mod_small (r0 mod size obj) (size obj)) at 1
      by (apply Z.mod_pos_bound; lia).
    rewrite Z.mod_mod by lia. f_equal. lia.
Qed.

Lemma updatePointer_validates_then_commits_witness :
  let obj := mk_ringbuf [1; 2; 3; 4] 4 0 0 0 in
  ringbuf_updatePointer obj 3 1 2 = (mk_ringbuf [1; 2; 3; 4] 4 2 3 1, true) ∧
  ring_inv (fst (ringbuf_updatePointer obj 3 1 2)) ∧
  fst (ringbuf_updatePointer obj 3 1 3) = obj.
Proof.
  intros obj.
  destruct (updatePointer_validates_then_commits obj 3 1 2)
    as (_ & H1 & _); [concrete..|].
  destruct (updatePointer_validates_then_commits obj 3 1 3)
    as (_ & _ & H2); [concrete..|].
  destruct (H1 eq_refl) as [H3 H4].
  split; [reflexivity|]. split; [exact H4 | exact (H2 eq_refl)].
Defined.

(** X20.  The status queries say what the next call will do: on a
    well-formed buffer [ringbuf_isFull] holds exactly when
    [ringbuf_write] of ringbuf.c stores nothing of a one-byte request,
    [ringbuf_isEmpty] holds exactly when [ringbuf_read] of a byte
    returns 0, and [ringbuf_getUsedLength] is the number of stored
    bytes. *)
Theorem status_queries_predict_next_call obj b out :
  good obj → (1 ≤ length out)%nat →
  (ringbuf_isFull obj = true
   ↔ snd (RingbufC.ringbuf_write obj [b] 1) = 0) ∧
  (ringbuf_isEmpty obj = true
   ↔ snd (RingbufC.ringbuf_read obj out 1) = 0) ∧
  ringbuf_getUsedLength obj = Z.of_nat (length (contents obj)).
Proof.
  intros Hg Ho.
  pose proof Hg as [(Hs & Hlen & Hu & Hf & Hr) [Hrear Hus]].
  destruct (ringbuf_write_spec obj [b] 1 Hg) as (W & _); [concrete|].
  pose proof (ringbuf_read_spec obj out 1 Hg) as R.
  specialize (R ltac:(concrete) ltac:(lia)).
  destruct (RingbufC.ringbuf_read obj out 1) as [[o p] r].
  destruct R as (R & _). simpl.
  unfold ringbuf_isFull, ringbuf_isEmpty, ringbuf_getUsedLength.
  rewrite contents_length, W, R.
  split_and!; [rewrite Z.geb_le|rewrite Z.eqb_eq|]; lia.
Qed.

Lemma status_queries_predict_next_call_witness :
  let obj := mk_ringbuf [3; 4; 1; 2] 4 4 2 2 in
  (ringbuf_isFull obj = true
   ↔ snd (RingbufC.ringbuf_write obj [9] 1) = 0) ∧
  (ringbuf_isEmpty obj = true
   ↔ snd (RingbufC.ringbuf_read obj [0] 1) = 0) ∧
  ringbuf_getUsedLength obj = Z.of_nat (length (contents obj)).
Proof.
  intros obj.
  apply (status_queries_predict_next_call obj 9 [0]); concrete.
Defined.

(** X21.  A de-initialised object refuses everything: after
    [ringbuf_deinit] every write, read, remove, modify, peek, fill and
    string scan of either file returns its neutral value (0, false,
    -1) through its first guard and changes neither the object nor the
    caller's buffer.  The object reports itself empty and full at
    once. *)
Theorem deinit_object_refuses_all obj pdata n k index value ch
    (force strictRead : bool) :
  is_u16 index →
  let d := ringbuf_deinit obj in
  RingbufC.ringbuf_write d pdata n = (d, 0) ∧
  RingbufC.ringbuf_writeForce d pdata n = (d, 0) ∧
  RingbufC.ringbuf_read d pdata n = (d, pdata, 0) ∧
  Part000.ringbuf_write d pdata n force = (d, 0) ∧
  Part000.ringbuf_read d pdata n strictRead = (d, pdata, 0) ∧
  ringbuf_remove d k = (d, 0) ∧
  ringbuf_modify d index n pdata = (d, false) ∧
  ringbuf_peek d index n pdata = (pdata, false) ∧
  ringbuf_memset d index value n = (d, 0) ∧
  ringbuf_strlen d index = 0 ∧
  ringbuf_strchr d index ch = -1 ∧
  ringbuf_strstr d index pdata = Some (-1) ∧
  ringbuf_isEmpty d = true ∧ ringbuf_isFull d = true.
Proof.
  intros Hi d. subst d. unfold is_u16 in Hi.
  unfold RingbufC.ringbuf_write, RingbufC.ringbuf_writeForce,
    RingbufC.ringbuf_read, Part000.ringbuf_write, Part000.ringbuf_read,
    ringbuf_remove, ringbuf_modify, ringbuf_peek, ringbuf_memset,
    ringbuf_strlen, ringbuf_strchr, ringbuf_strstr, ringbuf_deinit.
  simpl used. simpl size.
  replace (index >=? 0) with true by (symmetry; apply Z.geb_le; lia).
  change (0 =? 0) with true. rewrite !orb_true_r. simpl.
  split_and!; done.
Qed.

Lemma deinit_object_refuses_all_witness :
  let d := ringbuf_deinit (mk_ringbuf [1; 2; 3; 4] 4 2 1 3) in
  RingbufC.ringbuf_write d [7; 8] 2 = (d, 0) ∧
  RingbufC.ringbuf_writeForce d [7; 8] 2 = (d, 0) ∧
  RingbufC.ringbuf_read d [7; 8] 2 = (d, [7; 8], 0) ∧
  Part000.ringbuf_write d [7; 8] 2 true = (d, 0) ∧
  Part000.ringbuf_read d [7; 8] 2 false = (d, [7; 8], 0) ∧
  ringbuf_remove d (-1) = (d, 0) ∧
  ringbuf_modify d 0 2 [7; 8] = (d, false) ∧
  ringbuf_peek d 0 2 [7; 8] = ([7; 8], false) ∧
  ringbuf_memset d 0 5 2 = (d, 0) ∧
  ringbuf_strlen d 0 = 0 ∧
  ringbuf_strchr d 0 97 = -1 ∧
  ringbuf_strstr d 0 [7; 8] = Some (-1) ∧
  ringbuf_isEmpty d = true ∧ ringbuf_isFull d = true.
Proof.
  apply (deinit_object_refuses_all (mk_ringbuf [1; 2; 3; 4] 4 2 1 3)
           [7; 8] 2 (-1) 0 5 97 true false).
  concrete.
Defined.

(** X22.  Round trip in part_000: on a freshly initialised buffer of
    capacity [C], writing [N <= C] bytes (with or without [force]) and
    then reading [N] bytes (with or without [strictRead]) returns the
    count [N] both times; the caller's buffer then starts with exactly
    the written bytes, and [ringbuf_isEmpty] holds again. *)
Theorem write_read_round_trip_flags a C data out obj (force strictRead : bool) :
  is_u16 C → length a = Z.to_nat C → ringbuf_init a C = Some obj →
  Z.of_nat (length data) ≤ C → (length data ≤ length out)%nat →
  let N := Z.of_nat (length data) in
  let '(o1, w) := Part000.ringbuf_write obj data N force in
  let '(o2, p, r) := Part000.ringbuf_read o1 out N strictRead in
  w = N ∧ r = N ∧
  take (length data) p = data ∧
  drop (length data) p = drop (length data) out ∧
  ringbuf_isEmpty o2 = true.
Proof. apply write_read_round_trip_part_000. Qed.

Lemma write_read_round_trip_flags_witness :
  let '(o1, w) := Part000.ringbuf_write (mk_ringbuf [0; 0; 0; 0] 4 0 0 0)
                    [7; 8; 9] 3 true in
  let '(o2, p, r) := Part000.ringbuf_read o1 [0; 0; 0; 0; 0] 3 true in
  w = 3 ∧ r = 3 ∧ take 3 p = [7; 8; 9] ∧ drop 3 p = [0; 0] ∧
  ringbuf_isEmpty o2 = true.
Proof.
  apply (write_read_round_trip_flags [0; 0; 0; 0] 4 [7; 8; 9] [0; 0; 0; 0; 0]
           (mk_ringbuf [0; 0; 0; 0] 4 0 0 0) true true); concrete.
Defined.

(** X23.  First in, first out (ringbuf.c): when a request that fits is
    written to a well-formed buffer and then everything is read, the
    read returns the bytes that were stored before, in their order,
    followed by the written bytes, and the buffer is empty. *)
Theorem fifo_order obj data out :
  good obj → Z.of_nat (length data) ≤ size obj - used obj →
  (Z.to_nat (used obj) + length data ≤ length out)%nat →
  let N := Z.of_nat (length data) in
  let o1 := fst (RingbufC.ringbuf_write obj data N) in
  let res := RingbufC.ringbuf_read o1 out (used obj + N) in
  snd res = used obj + N ∧
  take (Z.to_nat (used obj + N)) (snd (fst res)) = contents obj ++ data ∧
  ringbuf_isEmpty (fst (fst res)) = true.
Proof.
  intros Hg HN Ho N o1 res. subst res.
  pose proof Hg as [(Hs & Hlen & Hu & Hf & Hr) [Hrear Hus]].
  destruct (ringbuf_write_spec obj data N Hg) as (_ & Hg1 & _ & W1 & _ & W2);
    [unfold is_u16; lia|].
  fold o1 in Hg1, W1, W2.
  replace (Z.min N (size obj - used obj)) with N in * by lia.
  subst N. rewrite slice_all in W2. clearbody o1.
  pose proof (ringbuf_read_spec o1 out (used obj + Z.of_nat (length data)) Hg1)
    as R.
  replace (Z.min (used obj + Z.of_nat (length data)) (used o1))
    with (used obj + Z.of_nat (length data)) in R by lia.
  specialize (R ltac:(unfold is_u16; lia) ltac:(lia)).
  destruct (RingbufC.ringbuf_read o1 out _) as [[o2 p] r].
  destruct R as (-> & -> & _ & _ & R3 & _). simpl.
  assert (Hl : length (contents obj ++ data)
               = Z.to_nat (used obj + Z.of_nat (length data))).
  { rewrite length_app, contents_length. lia. }
  split_and!; [done| |unfold ringbuf_isEmpty; apply Z.eqb_eq; lia].
  rewrite W2. rewrite (take_ge (contents obj ++ data)) by lia.
  by rewrite take_app_length' by done.
Qed.

Lemma fifo_order_witness :
  let obj := mk_ringbuf [13; 0; 0; 0; 0; 0; 11; 12] 8 3 6 1 in
  let o1 := fst (RingbufC.ringbuf_write obj [7; 8] 2) in
  let res := RingbufC.ringbuf_read o1 [0; 0; 0; 0; 0; 0] 5 in
  snd res = 5 ∧
  take 5 (snd (fst res)) = [11; 12; 13] ++ [7; 8] ∧
  ringbuf_isEmpty (fst (fst res)) = true.
Proof.
  apply (fifo_order (mk_ringbuf [13; 0; 0; 0; 0; 0; 11; 12] 8 3 6 1) [7; 8]
           [0; 0; 0; 0; 0; 0]); concrete.
Defined.

(** X24.  [ringbuf_init] gives an empty buffer with the whole capacity
    free: it fails for size 0; for a size [1 <= size <= 65535] it
    succeeds, the object is well formed, stores nothing,
    [ringbuf_isEmpty] holds and [ringbuf_isFull] does not, and a first
    [ringbuf_write] of ringbuf.c stores the first [min length size]
    bytes of its request, whatever the storage held before. *)
Theorem init_gives_empty_buffer a sz data :
  is_u16 sz → length a = Z.to_nat sz →
  Z.of_nat (length data) ≤ UINT16_MAX →
  (sz = 0 → ringbuf_init a sz = None) ∧
  (0 < sz →
   ∃ obj, ringbuf_init a sz = Some obj ∧ good obj ∧
          contents obj = [] ∧
          ringbuf_isEmpty obj = true ∧ ringbuf_isFull obj = false ∧
          snd (RingbufC.ringbuf_write obj data (Z.of_nat (length data)))
          = Z.min (Z.of_nat (length data)) sz ∧
          contents (fst (RingbufC.ringbuf_write obj data
                           (Z.of_nat (length data))))
          = take (Z.to_nat sz) data).
Proof.
  intros Hsz Hlen Hd. split; [by intros ->|]. intros Hpos.
  destruct (ringbuf_init a sz) as [obj|] eqn:Hi;
    [|unfold ringbuf_init in Hi; destruct (Z.leb_spec sz 0); [lia|done]].
  pose proof (ringbuf_init_good _ _ _ Hsz Hlen Hi) as Hg.
  assert (Hf : size obj = sz ∧ used obj = 0).
  { unfold ringbuf_init in Hi. destruct (sz <=? 0); [done|].
    by injection Hi as <-. }
  destruct Hf as [Hf1 Hf2].
  exists obj.
  destruct (ringbuf_write_spec obj data (Z.of_nat (length data)) Hg)
    as (W1 & _ & _ & _ & _ & W2); [unfold is_u16, UINT16_MAX in *; lia|].
  assert (Hc : contents obj = [])
    by (unfold contents; apply window_nil; lia).
  rewrite Hf1, Hf2, Hc, Z.sub_0_r in *.
  split_and!; try done.
  - unfold ringbuf_isEmpty. apply Z.eqb_eq. lia.
  - unfold ringbuf_isFull. rewrite Hf1, Hf2.
    destruct (Z.geb_spec 0 sz); [lia|done].
  - rewrite W2. simpl.
    destruct (Z.le_gt_cases (Z.of_nat (length data)) sz).
    + rewrite Z.min_l by lia. rewrite slice_all. symmetry. apply take_ge. lia.
    + rewrite Z.min_r by lia.
      rewrite <- (Z2Nat.id sz) at 1 by lia. apply slice_take. lia.
Qed.

Lemma init_gives_empty_buffer_witness :
  ∃ obj, ringbuf_init [5; 6; 7] 3 = Some obj ∧ good obj ∧
         contents obj = [] ∧
         ringbuf_isEmpty obj = true ∧ ringbuf_isFull obj = false ∧
         snd (RingbufC.ringbuf_write obj [1; 2; 3; 4] 4) = 3 ∧
         contents (fst (RingbufC.ringbuf_write obj [1; 2; 3; 4] 4))
         = [1; 2; 3].
Proof.
  destruct (init_gives_empty_buffer [5; 6; 7] 3 [1; 2; 3; 4])
    as [_ H]; [concrete..|].
  apply H. lia.
Defined.
